(** * Crash triage in trace-guided symbolic execution

    A shallow embedding of [angr/exploration_techniques/crash_monitor.py]
    (the [CrashMonitor] exploration technique) and of
    [pysex/s_arch.py] (the AMD64 subroutine-return emulator), with
    the properties of the design document stated over the embedding.

    The symbolic execution engine is an external collaborator: it enters
    the development as a record of functions ([Engine]) and the source's own
    control flow, its mutation of shared objects and the exceptions its own
    statements raise are modelled explicitly. *)

From Stdlib Require Import ZArith Ascii String List Bool Lia Sorted Permutation.
From stdpp Require Import base gmap strings list.
Import ListNotations.
Local Open Scope Z_scope.
Local Open Scope string_scope.
Local Open Scope list_scope.

(** ** Python exceptions and outcomes *)

Inductive exn : Type :=
  | NameError (name : string)
  | IndexError
  | ValueError
  | TypeError
  | AttributeError
  | SymbolicArchError (msg : string).

Inductive outcome (A : Type) : Type :=
  | Ok (a : A)
  | Raise (e : exn).
Arguments Ok {A} a.
Arguments Raise {A} e.

Definition obind {A B} (x : outcome A) (f : A -> outcome B) : outcome B :=
  match x with
  | Ok a => f a
  | Raise e => Raise e
  end.

(** [xs[i]] on a Python list, for a non-negative index. *)
Definition py_index {A} (xs : list A) (i : nat) : outcome A :=
  match nth_error xs i with
  | Some x => Ok x
  | None => Raise IndexError
  end.

(** [xs[-1]]. *)
Definition py_last {A} (xs : list A) : outcome A :=
  match rev xs with
  | x :: _ => Ok x
  | [] => Raise IndexError
  end.

(** ** Python string helpers used by [_to_indices] *)

Module PyStr.

(** [s.startswith(p)]. *)
Definition startswith (s p : string) : bool := String.prefix p s.

(** [s.split(sep)] for a one-character separator: the pieces between the
    occurrences of [sep], empty pieces included; never an empty list. *)
Fixpoint split_acc (sep : ascii) (s : string) (cur : string) : list string :=
  match s with
  | EmptyString => [cur]
  | String c rest =>
      if Ascii.eqb c sep
      then cur :: split_acc sep rest EmptyString
      else split_acc sep rest (cur ++ String c EmptyString)
  end.

Definition split (sep : ascii) (s : string) : list string :=
  split_acc sep s EmptyString.

Definition is_space (c : ascii) : bool :=
  let n := nat_of_ascii c in
  (Nat.leb 9 n && Nat.leb n 13) || Nat.eqb n 32.

Fixpoint lstrip (s : string) : string :=
  match s with
  | String c rest => if is_space c then lstrip rest else s
  | EmptyString => EmptyString
  end.

Fixpoint string_rev_acc (s acc : string) : string :=
  match s with
  | EmptyString => acc
  | String c rest => string_rev_acc rest (String c acc)
  end.

Definition string_rev (s : string) : string := string_rev_acc s EmptyString.

Definition strip (s : string) : string :=
  string_rev (lstrip (string_rev (lstrip s))).

Definition hex_digit (c : ascii) : option Z :=
  let n := Z.of_nat (nat_of_ascii c) in
  if (Z.leb 48 n && Z.leb n 57)%Z then Some (n - 48)%Z
  else if (Z.leb 97 n && Z.leb n 102)%Z then Some (n - 87)%Z
  else if (Z.leb 65 n && Z.leb n 70)%Z then Some (n - 55)%Z
  else None.

Fixpoint hex_digits (s : string) (acc : Z) : option Z :=
  match s with
  | EmptyString => Some acc
  | String c rest =>
      match hex_digit c with
      | Some d => hex_digits rest (16 * acc + d)%Z
      | None => None
      end
  end.

Definition drop_0x (s : string) : string :=
  match s with
  | String "0" (String "x" rest) => rest
  | String "0" (String "X" rest) => rest
  | _ => s
  end.

Definition unsigned16 (s : string) : option Z :=
  match drop_0x s with
  | EmptyString => None
  | body => hex_digits body 0
  end.

(** [int(s, 16)]: surrounding white space is ignored, then an optional
    sign, an optional [0x] prefix and at least one hexadecimal digit;
    anything else is a [ValueError]. *)
Definition int16 (s : string) : outcome Z :=
  let r :=
    match strip s with
    | String "-" rest => option_map Z.opp (unsigned16 rest)
    | String "+" rest => unsigned16 rest
    | body => unsigned16 body
    end in
  match r with
  | Some z => Ok z
  | None => Raise ValueError
  end.

(** [sorted(xs)] on integers. *)
Fixpoint insert_sorted (x : Z) (xs : list Z) : list Z :=
  match xs with
  | [] => [x]
  | y :: ys => if Z.leb x y then x :: xs else y :: insert_sorted x ys
  end.

Definition sorted (xs : list Z) : list Z :=
  fold_right insert_sorted [] xs.

End PyStr.

(** [map(f, xs)] where [f] may raise: the first exception wins. *)
Fixpoint map_outcome {A B} (f : A -> outcome B) (xs : list A) : outcome (list B) :=
  match xs with
  | [] => Ok []
  | x :: rest =>
      obind (f x) (fun y => obind (map_outcome f rest) (fun ys => Ok (y :: ys)))
  end.

(** [CrashMonitor._to_indices], lines 183-187. *)
Definition _to_indices (variables : list string) : outcome (list Z) :=
  let variables := List.filter (fun v => PyStr.startswith v "file_/dev/stdin") variables in
  obind (map_outcome
           (fun y => obind (py_index (PyStr.split "_" y) 3) PyStr.int16)
           variables)
        (fun indices => Ok (PyStr.sorted indices)).

(** ** Data model *)

(** States are Python objects that several owners refer to ([simgr.active],
    [self.last_state], [self._crash_state]) and that are mutated in place;
    they live in a store indexed by references. *)
Definition loc := nat.

Inductive CrashType : Type := EXEC_STACK | QEMU_CRASH.

#[global] Instance CrashType_eq_dec : EqDecision CrashType.
Proof. solve_decision. Defined.

Inductive EventType : Type := ev_state_step | ev_address_concretization.
Inductive When : Type := BP_BEFORE | BP_AFTER.

#[global] Instance EventType_eq_dec : EqDecision EventType.
Proof. solve_decision. Defined.
#[global] Instance When_eq_dec : EqDecision When.
Proof. solve_decision. Defined.

(** The callables this module registers as breakpoint actions. *)
Inductive Action : Type :=
  | act_check_stack
  | act_dont_add_constraints
  | act_grab_concretization_results.

(** A breakpoint object; [bp_handle] stands for its identity. *)
Record BP : Type := mkBP {
  bp_handle : nat;
  bp_event : EventType;
  bp_when : When;
  bp_action : Action
}.

(** A claripy expression: an opaque term with its free variable names. *)
Record Expr : Type := mkExpr {
  expr_id : nat;
  variables : list string
}.

#[global] Instance Expr_eq_dec : EqDecision Expr.
Proof. solve_decision. Defined.

Inductive Constraint : Type :=
  | EqConst (var : Expr) (val : Z)      (* [var == val] *)
  | OtherConstraint (n : nat).

#[global] Instance Constraint_eq_dec : EqDecision Constraint.
Proof. solve_decision. Defined.

(** [state.inspect]. *)
Record Inspect : Type := mkInspect {
  breakpoints : list BP;
  address_concretization_expr : Expr;
  address_concretization_result : option (list Z);
  address_concretization_add_constraints : bool
}.

(** [state.preconstrainer]. *)
Record Preconstrainer : Type := mkPreconstrainer {
  address_concretization : list (Expr * list Z);
  _constrained_addrs : list Expr     (* the [addr] of each registered action *)
}.

Record SimState : Type := mkSimState {
  ip_symbolic : bool;   (* [state.memory.load(state.ip, state.ip.length).symbolic] *)
  bb_cnt : nat;         (* [state.globals['bb_cnt']] *)
  inspect : Inspect;
  constraints : list Constraint;
  preconstrainer : Preconstrainer
}.

Definition Heap := loc -> SimState.

Definition heap_set (h : Heap) (l : loc) (s : SimState) : Heap :=
  fun l' => if Nat.eqb l' l then s else h l'.

(** The simulation manager; a stash holds references, [None] being Python's
    [None]. *)
Record SimGr : Type := mkSimGr {
  stashes : gmap string (list (option loc));
  _project : nat
}.

Definition active (sg : SimGr) : list (option loc) :=
  default [] (stashes sg !! "active").

Record CrashMonitor : Type := mkCrashMonitor {
  _trace : option (list Z);
  _trim_history : bool;
  _crash_mode : bool;
  _crash_addr : option Z;
  last_state : option loc;
  _crash_type : option CrashType;
  _crash_state : option loc;
  project : option nat
}.

(** [CrashMonitor.__init__], lines 20-36. *)
Definition __init__ (trace : option (list Z)) (trim_history crash_mode : bool)
    (crash_addr : option Z) : CrashMonitor :=
  {| _trace := trace; _trim_history := trim_history; _crash_mode := crash_mode;
     _crash_addr := crash_addr; last_state := None; _crash_type := None;
     _crash_state := None; project := None |}.

(** Attribute assignments on [self]. *)
Definition set_last_state (m : CrashMonitor) (r : option loc) : CrashMonitor :=
  {| _trace := _trace m; _trim_history := _trim_history m;
     _crash_mode := _crash_mode m; _crash_addr := _crash_addr m;
     last_state := r;
     _crash_type := _crash_type m; _crash_state := _crash_state m;
     project := project m |}.

Definition set_crash_type (m : CrashMonitor) (t : option CrashType) : CrashMonitor :=
  {| _trace := _trace m; _trim_history := _trim_history m;
     _crash_mode := _crash_mode m; _crash_addr := _crash_addr m;
     last_state := last_state m;
     _crash_type := t; _crash_state := _crash_state m;
     project := project m |}.

Definition set_crash_state (m : CrashMonitor) (r : option loc) : CrashMonitor :=
  {| _trace := _trace m; _trim_history := _trim_history m;
     _crash_mode := _crash_mode m; _crash_addr := _crash_addr m;
     last_state := last_state m;
     _crash_type := _crash_type m; _crash_state := r;
     project := project m |}.

Definition set_project (m : CrashMonitor) (p : option nat) : CrashMonitor :=
  {| _trace := _trace m; _trim_history := _trim_history m;
     _crash_mode := _crash_mode m; _crash_addr := _crash_addr m;
     last_state := last_state m;
     _crash_type := _crash_type m; _crash_state := _crash_state m;
     project := p |}.

(** The calls into the engine and the entries into windup, in the order
    they are made. *)
Inductive Call : Type :=
  | CallSimgrStep
  | CallWindup
  | CallStateStep (l : loc) (num_inst : option nat)
  | CallAddConstraints (l : loc) (c : Constraint)
  | CallRemoveBreakpoint (l : loc) (handle : nat).

#[global] Instance Call_eq_dec : EqDecision Call.
Proof. solve_decision. Defined.

(** The engine's side of the interface (section 6 of the design): what a
    step of the manager or of one state produces. Engine operations return
    normally; the exceptions modelled are those of this module's own
    statements. *)
Record Engine : Type := mkEngine {
  (* [simgr.step()]: the store and the manager after the step, and the
     states on which the [state_step] event was triggered, in order *)
  E_simgr_step : Heap -> SimGr -> Heap * SimGr * list loc;
  (* [state.history.trim()] *)
  E_history_trim : SimState -> SimState;
  (* the address concretizations a step of this state runs into: the
     address expression and the resolver's result *)
  E_concretizations : Heap -> loc -> option nat -> list (Expr * option (list Z));
  (* the successors of a step: [flat_successors], [unconstrained_successors] *)
  E_successors : Heap -> loc -> option nat -> Heap * list loc * list loc;
  (* [state.block().instruction_addrs] *)
  E_instruction_addrs : SimState -> list Z;
  (* [state.se.satisfiable()] *)
  E_satisfiable : SimState -> bool;
  (* [state.preconstrainer.remove_preconstraints()], [.reconstrain()] *)
  E_remove_preconstraints : SimState -> SimState;
  E_reconstrain : SimState -> SimState;
  (* [simgr._make_stashes_dict], applied to the keyword stashes *)
  E_make_stashes_dict :
    gmap string (list (option loc)) -> gmap string (list (option loc))
}.

(** ** The monad of the module: a world of mutable objects, and exceptions *)

Record World : Type := mkWorld {
  heap : Heap;
  simgr : SimGr;
  self : CrashMonitor;
  calls : list Call
}.

Definition M (A : Type) : Type := World -> outcome A * World.

Definition ret {A} (a : A) : M A := fun w => (Ok a, w).
Definition raise {A} (e : exn) : M A := fun w => (Raise e, w).
Definition bind {A B} (c : M A) (k : A -> M B) : M B :=
  fun w => match c w with
           | (Ok a, w') => k a w'
           | (Raise e, w') => (Raise e, w')
           end.
Definition lift {A} (o : outcome A) : M A := fun w => (o, w).

Notation "'let*' x ':=' c 'in' k" := (bind c (fun x => k))
  (at level 10, x pattern, c at level 100, k at level 200).
Notation "c ';;;' k" := (bind c (fun _ => k))
  (at level 100, right associativity).

Definition get_world : M World := fun w => (Ok w, w).
Definition get_self : M CrashMonitor := fun w => (Ok (self w), w).
Definition get_simgr : M SimGr := fun w => (Ok (simgr w), w).
Definition get_heap : M Heap := fun w => (Ok (heap w), w).
Definition put_heap (h : Heap) : M unit :=
  fun w => (Ok tt, {| heap := h; simgr := simgr w; self := self w; calls := calls w |}).
Definition put_simgr (sg : SimGr) : M unit :=
  fun w => (Ok tt, {| heap := heap w; simgr := sg; self := self w; calls := calls w |}).
Definition put_self (m : CrashMonitor) : M unit :=
  fun w => (Ok tt, {| heap := heap w; simgr := simgr w; self := m; calls := calls w |}).
Definition record_call (c : Call) : M unit :=
  fun w => (Ok tt, {| heap := heap w; simgr := simgr w; self := self w;
                      calls := calls w ++ [c] |}).

(** Dereferencing: an attribute access on [None] is an [AttributeError]. *)
Definition deref (r : option loc) : M loc :=
  match r with
  | Some l => ret l
  | None => raise AttributeError
  end.

Definition read_state (l : loc) : M SimState :=
  fun w => (Ok (heap w l), w).

(** An in-place update of the object behind a reference; [f] may raise. *)
Definition update_state (l : loc) (f : SimState -> outcome SimState) : M unit :=
  fun w => match f (heap w l) with
           | Ok s => put_heap (heap_set (heap w) l s) w
           | Raise e => (Raise e, w)
           end.
Definition modify_state (l : loc) (f : SimState -> SimState) : M unit :=
  update_state l (fun s => Ok (f s)).

(** An assignment to attributes of [self]. *)
Definition modify_self (f : CrashMonitor -> CrashMonitor) : M unit :=
  fun w => put_self (f (self w)) w.

(** [for x in xs: body(x)]. *)
Fixpoint for_each {A} (xs : list A) (body : A -> M unit) : M unit :=
  match xs with
  | [] => ret tt
  | x :: rest => body x ;;; for_each rest body
  end.

(** ** The concretization interceptor, lines 147-181 *)

(** Reading a name that is bound nowhere in scope. *)
Definition undefined_name {A} (name : string) : outcome A :=
  Raise (NameError name).

(** The loop of [_add_constraints], lines 177-181. The method is static, so
    the name [self] of line 178 is bound in no scope: evaluating
    [self._to_indices(action.addr.variables)] raises before the call. *)
Fixpoint _add_constraints_loop (hit_indices : list Z) (actions : list Expr)
    : outcome bool :=
  match actions with
  | [] => Ok false
  | action :: rest =>
      obind (undefined_name "self")
            (fun var_indices : list Z =>
               if bool_decide (var_indices = hit_indices) then Ok true
               else _add_constraints_loop hit_indices rest)
  end.

(** [CrashMonitor._add_constraints], lines 172-181. *)
Definition _add_constraints (state : SimState) : outcome bool :=
  let variables := variables (address_concretization_expr (inspect state)) in
  obind (_to_indices variables)
        (fun hit_indices =>
           _add_constraints_loop hit_indices
             (_constrained_addrs (preconstrainer state))).

Definition set_add_constraints (state : SimState) (b : bool) : SimState :=
  {| ip_symbolic := ip_symbolic state; bb_cnt := bb_cnt state;
     inspect :=
       {| breakpoints := breakpoints (inspect state);
          address_concretization_expr := address_concretization_expr (inspect state);
          address_concretization_result := address_concretization_result (inspect state);
          address_concretization_add_constraints := b |};
     constraints := constraints state;
     preconstrainer := preconstrainer state |}.

(** [CrashMonitor._dont_add_constraints], lines 162-170. *)
Definition _dont_add_constraints (state : SimState) : outcome SimState :=
  obind (_add_constraints state) (fun b => Ok (set_add_constraints state b)).

(** [CrashMonitor._grab_concretization_results], lines 147-160. The method
    is static as well: line 160 reads the unbound name [self] before
    anything is appended. *)
Definition _grab_concretization_results (state : SimState) : outcome SimState :=
  obind (_add_constraints state)
        (fun matched =>
           if matched then
             let addr := address_concretization_expr (inspect state) in
             match address_concretization_result (inspect state) with
             | None => Ok state
             | Some result =>
                 obind (undefined_name "self")
                       (fun recorder : list (Expr * list Z) => Ok state)
             end
           else Ok state).

(** ** Breakpoints *)

Definition set_breakpoints (state : SimState) (bps : list BP) : SimState :=
  {| ip_symbolic := ip_symbolic state; bb_cnt := bb_cnt state;
     inspect :=
       {| breakpoints := bps;
          address_concretization_expr := address_concretization_expr (inspect state);
          address_concretization_result := address_concretization_result (inspect state);
          address_concretization_add_constraints :=
            address_concretization_add_constraints (inspect state) |};
     constraints := constraints state;
     preconstrainer := preconstrainer state |}.

(** A handle no registered breakpoint has: a new object's identity. *)
Definition fresh_handle (bps : list BP) : nat :=
  S (fold_right Nat.max 0%nat (map bp_handle bps)).

(** Modelled from the spec: [state.inspect.b(event, when, action)] of the
    engine's inspection plugin (section 6: hook registration keyed by event
    name and phase, removable by handle). It makes a breakpoint, appends it
    to the state's breakpoints and returns it. *)
Definition inspect_b (l : loc) (event : EventType) (when : When)
    (action : Action) : M BP :=
  let* state := read_state l in
  let bp := {| bp_handle := fresh_handle (breakpoints (inspect state));
               bp_event := event; bp_when := when; bp_action := action |} in
  modify_state l (fun state =>
    set_breakpoints state (breakpoints (inspect state) ++ [bp])) ;;;
  ret bp.

(** [list.remove(x)] by identity: the first breakpoint with the handle goes. *)
Fixpoint remove_handle (event : EventType) (h : nat) (bps : list BP) : list BP :=
  match bps with
  | [] => []
  | bp :: rest =>
      if bool_decide (bp_event bp = event) && Nat.eqb (bp_handle bp) h
      then rest
      else bp :: remove_handle event h rest
  end.

(** Modelled from the spec: [state.inspect.remove_breakpoint(event, bp)] of
    the engine's inspection plugin; a breakpoint that is not registered is
    no error. *)
Definition remove_breakpoint (l : loc) (event : EventType) (bp : BP) : M unit :=
  record_call (CallRemoveBreakpoint l (bp_handle bp)) ;;;
  modify_state l (fun state =>
    set_breakpoints state
      (remove_handle event (bp_handle bp) (breakpoints (inspect state)))).

(** [CrashMonitor._check_stack], lines 80-84. *)
Definition _check_stack (l : loc) : M unit :=
  let* state := read_state l in
  if ip_symbolic state then
    modify_self (fun m => set_crash_type m (Some EXEC_STACK)) ;;;
    modify_self (fun m => set_crash_state m (Some l))
  else ret tt.

(** Running one registered action on the state it is attached to. *)
Definition run_action (l : loc) (a : Action) : M unit :=
  match a with
  | act_check_stack => _check_stack l
  | act_dont_add_constraints => update_state l _dont_add_constraints
  | act_grab_concretization_results => update_state l _grab_concretization_results
  end.

(** Modelled from the spec: the engine's event dispatch. The breakpoints of
    the state registered for the event and the phase run in registration
    order; an exception of an action is not caught. *)
Definition fire (l : loc) (event : EventType) (when : When) : M unit :=
  let* state := read_state l in
  for_each
    (List.filter (fun bp => bool_decide (bp_event bp = event)
                            && bool_decide (bp_when bp = when))
                 (breakpoints (inspect state)))
    (fun bp => run_action l (bp_action bp)).

(** ** Instruction-count selection, lines 113-121 *)

(** [x in xs], where [x] may be [None] and [xs] holds integers. *)
Definition py_in (x : option Z) (xs : list Z) : bool :=
  match x with
  | Some a => existsb (Z.eqb a) xs
  | None => false
  end.

(** [xs.index(a)]: the first position of [a], a [ValueError] without one. *)
Fixpoint index_from (a : Z) (xs : list Z) (i : nat) : outcome nat :=
  match xs with
  | [] => Raise ValueError
  | x :: rest => if Z.eqb x a then Ok i else index_from a rest (S i)
  end.

Definition py_list_index (x : option Z) (xs : list Z) : outcome nat :=
  match x with
  | Some a => index_from a xs 0
  | None => Raise ValueError
  end.

Definition windup_insts (crash_addr : option Z) (inst_addrs : list Z) : outcome nat :=
  let inst_cnt := length inst_addrs in
  if Nat.eqb inst_cnt 0 then Ok 0%nat
  else if py_in crash_addr inst_addrs then
    obind (py_list_index crash_addr inst_addrs) (fun i => Ok (i + 1)%nat)
  else Ok (inst_cnt - 1)%nat.

(** ** The exploration technique *)

Definition set_concretization (state : SimState) (e : Expr)
    (r : option (list Z)) (add : bool) : SimState :=
  {| ip_symbolic := ip_symbolic state; bb_cnt := bb_cnt state;
     inspect :=
       {| breakpoints := breakpoints (inspect state);
          address_concretization_expr := e;
          address_concretization_result := r;
          address_concretization_add_constraints := add |};
     constraints := constraints state;
     preconstrainer := preconstrainer state |}.

Definition add_constraint (state : SimState) (c : Constraint) : SimState :=
  {| ip_symbolic := ip_symbolic state; bb_cnt := bb_cnt state;
     inspect := inspect state;
     constraints := constraints state ++ [c];
     preconstrainer := preconstrainer state |}.

(** [len(xs)] of an attribute that may hold [None]. *)
Definition py_len {A} (xs : option (list A)) : outcome nat :=
  match xs with
  | Some l => Ok (length l)
  | None => Raise TypeError
  end.

Section Technique.

Variable E : Engine.

(** [simgr.step()]: the engine advances the manager, and the [state_step]
    breakpoints of the states it reports run after the step. *)
Definition simgr_step : M unit :=
  record_call CallSimgrStep ;;;
  let* w := get_world in
  let '(h, sg, fired) := E_simgr_step E (heap w) (simgr w) in
  put_heap h ;;;
  put_simgr sg ;;;
  for_each fired (fun l => fire l ev_state_step BP_AFTER).

(** One address concretization inside a step: the engine publishes the
    expression, runs the before-hooks, publishes the resolver's result and
    runs the after-hooks. *)
Definition concretize (l : loc) (ev : Expr * option (list Z)) : M unit :=
  modify_state l (fun state => set_concretization state (fst ev) None true) ;;;
  fire l ev_address_concretization BP_BEFORE ;;;
  modify_state l (fun state =>
    set_concretization state (fst ev) (snd ev)
      (address_concretization_add_constraints (inspect state))) ;;;
  fire l ev_address_concretization BP_AFTER.

(** [state.step(num_inst=n)]: the successor buckets of one state. *)
Definition state_step (l : loc) (num_inst : option nat) : M (list loc * list loc) :=
  record_call (CallStateStep l num_inst) ;;;
  let* h := get_heap in
  for_each (E_concretizations E h l num_inst) (concretize l) ;;;
  let* h := get_heap in
  let '(h', flat, unconstrained) := E_successors E h l num_inst in
  put_heap h' ;;;
  ret (flat, unconstrained).

(** [state.add_constraints(c)]. *)
Definition add_constraints (l : loc) (c : Constraint) : M unit :=
  record_call (CallAddConstraints l c) ;;;
  modify_state l (fun state => add_constraint state c).

(** [CrashMonitor.setup], lines 38-40. *)
Definition setup : M unit :=
  let* sg := get_simgr in
  modify_self (fun m => set_project m (Some (_project sg))) ;;;
  let* a0 := lift (py_index (active sg) 0) in
  let* l := deref a0 in
  let* _ := inspect_b l ev_state_step BP_AFTER act_check_stack in
  ret tt.

(** The body of the loop of lines 107-110. *)
Definition constrain_concretized (l : loc) (ev : Expr * list Z) : M unit :=
  let '(var, concrete_vals) := ev in
  if Nat.ltb 0 (length concrete_vals) then
    let* v := lift (py_index concrete_vals 0) in
    add_constraints l (EqConst var v)
  else ret tt.

(** The loop of lines 107-110. *)
Definition add_concretized_constraints (l : loc) : M unit :=
  let* state := read_state l in
  for_each (address_concretization (preconstrainer state))
    (constrain_concretized l).

(** Lines 125-129: adopting the first successor of the partial step. *)
Definition adopt_successor (state : loc) (succs : list loc) : M loc :=
  if Nat.ltb 0 (length succs) then
    let* h := get_heap in
    let succs :=
      if Nat.ltb 1 (length succs)
      then List.filter (fun s => E_satisfiable E (h s)) succs
      else succs in
    let* state := lift (py_index succs 0) in
    modify_self (fun m => set_last_state m (Some state)) ;;;
    ret state
  else ret state.

(** Lines 138-145: the hooks go, then the final step. *)
Definition windup_finish (state : loc) (bp1 bp2 : BP) : M loc :=
  remove_breakpoint state ev_address_concretization bp1 ;;;
  remove_breakpoint state ev_address_concretization bp2 ;;;
  let* (flat, unconstrained) := state_step state None in
  lift (py_index (flat ++ unconstrained) 0).

(** Lines 112-145. *)
Definition windup_resume (state : loc) (bp1 bp2 : BP) : M loc :=
  let* st := read_state state in
  let inst_addrs := E_instruction_addrs E st in
  let* m := get_self in
  let* insts := lift (windup_insts (_crash_addr m) inst_addrs) in
  let* (succs, _) := state_step state (Some insts) in
  let* state := adopt_successor state succs in
  modify_state state (E_remove_preconstraints E) ;;;
  modify_state state (E_reconstrain E) ;;;
  windup_finish state bp1 bp2.

(** Lines 92-104: the two hooks go on, then the full block step. *)
Definition windup_prepare (state : loc) : M (BP * BP) :=
  let* bp1 := inspect_b state ev_address_concretization BP_BEFORE
                act_dont_add_constraints in
  let* bp2 := inspect_b state ev_address_concretization BP_AFTER
                act_grab_concretization_results in
  let* _ := state_step state None in
  ret (bp1, bp2).

(** [CrashMonitor._crash_windup], lines 86-145. *)
Definition _crash_windup : M loc :=
  record_call CallWindup ;;;
  let* m := get_self in
  let* state := deref (last_state m) in
  let* (bp1, bp2) := windup_prepare state in
  add_concretized_constraints state ;;;
  windup_resume state bp1 bp2.

(** [CrashMonitor.complete], lines 42-57. *)
Definition complete : M bool :=
  let* m := get_self in
  match _crash_type m with
  | Some crash_type =>
      let* sg := get_simgr in
      let stashes0 := stashes sg in
      (if bool_decide (crash_type = QEMU_CRASH) then
         (* the argument of the log call, [self._trace[-1]] *)
         let* trace := lift (match _trace m with
                             | Some t => Ok t
                             | None => Raise TypeError
                             end) in
         let* _ := lift (py_last trace) in
         let* crashed := _crash_windup in
         modify_self (fun m => set_crash_state m (Some crashed))
       else ret tt) ;;;
      let* m := get_self in
      let* sg := get_simgr in
      put_simgr {| stashes := E_make_stashes_dict E
                                (<["crashed" := [_crash_state m]]> stashes0);
                   _project := _project sg |} ;;;
      ret true
  | None => ret false
  end.

(** Lines 69-76: the checks after the engine step. *)
Definition check_deadend : M unit :=
  let* m := get_self in
  if bool_decide (_crash_type m = Some EXEC_STACK) then ret tt
  else
    let* l := deref (last_state m) in
    let* st := read_state l in
    let* n := lift (py_len (_trace m)) in
    if Nat.leb n (bb_cnt st) && _crash_mode m then
      simgr_step ;;;
      modify_self (fun m => set_crash_type m (Some QEMU_CRASH))
    else ret tt.

(** [CrashMonitor.step], lines 59-78. *)
Definition step : M unit :=
  let* sg := get_simgr in
  if Nat.eqb (length (active sg)) 1 then
    let* a0 := lift (py_index (active sg) 0) in
    modify_self (fun m => set_last_state m a0) ;;;
    let* m := get_self in
    (if _trim_history m && negb (_crash_mode m) then
       let* l := deref (last_state m) in
       modify_state l (E_history_trim E)
     else ret tt) ;;;
    simgr_step ;;;
    check_deadend
  else ret tt.

End Technique.

(** ** The subroutine-return emulator, [pysex/s_arch.py] *)

Module SArch.

Record IMark : Type := mkIMark { addr : Z }.

Section Emulator.

(** [pyvex] and [s_irsb] are other modules: their objects are opaque
    here. *)
Variables IRSB SymState SymbolicIRSB Exit : Type.
Variable pyvex_IRSB : string -> Z -> string -> IRSB.
Variable copy_after : SymState -> SymState.
Variable mk_SymbolicIRSB : IRSB -> SymState -> SymbolicIRSB.
Variable exits_of : SymbolicIRSB -> list Exit.

(** The block of the injected [ret] instruction, lines 17-18. *)
Definition ret_sirsb (call_imark : IMark) (state : SymState) : SymbolicIRSB :=
  let ret_irsb := pyvex_IRSB "\xc3" (- addr call_imark) "VexArchAMD64" in
  mk_SymbolicIRSB ret_irsb (copy_after state).

(** [SymbolicAMD64.emulate_subroutine], lines 14-24. *)
Definition emulate_subroutine (call_imark : IMark) (state : SymState)
    : outcome Exit :=
  let exits := exits_of (ret_sirsb call_imark state) in
  if negb (Nat.eqb (length exits) 1) then
    Raise (SymbolicArchError
             "Return has more than one exit. This isn't supported.")
  else py_index exits 0.

End Emulator.

End SArch.

(** ** A small engine, to run the technique on concrete inputs *)

Module Toy.

Definition expr_stdin : Expr := mkExpr 1 ["file_/dev/stdin_0_1f_7_8"].
Definition expr_short : Expr := mkExpr 2 ["file_/dev/stdin"].
Definition expr_reg : Expr := mkExpr 3 ["reg_rax_3_64"].

Definition blank_inspect : Inspect :=
  {| breakpoints := []; address_concretization_expr := expr_reg;
     address_concretization_result := None;
     address_concretization_add_constraints := true |}.

Definition blank_state (cnt : nat) (sym : bool) : SimState :=
  {| ip_symbolic := sym; bb_cnt := cnt; inspect := blank_inspect;
     constraints := [];
     preconstrainer := {| address_concretization := []; _constrained_addrs := [] |} |}.

(** State [k] has executed [k] blocks; its instruction pointer is
    symbolic from reference [sym_from] on. *)
Definition heap0 (sym_from : nat) : Heap :=
  fun l => blank_state l (Nat.leb sym_from l).

Definition simgr_of (l : loc) : SimGr :=
  {| stashes := {[ "active" := [Some l] ]}; _project := 7 |}.

(** The manager moves its single state [l] to [l+1]; the successor
    inherits the breakpoints and the [state_step] event fires on it. *)
Definition toy_simgr_step (h : Heap) (sg : SimGr) : Heap * SimGr * list loc :=
  match active sg with
  | [Some l] =>
      let s := h l in
      let s' := set_breakpoints (h (S l)) (breakpoints (inspect s)) in
      (heap_set h (S l) s',
       {| stashes := <["active" := [Some (S l)]]> (stashes sg);
          _project := _project sg |},
       [S l])
  | _ => (h, sg, [])
  end.

(** A step of state [l] has the single resolved successor [l+1], which
    inherits the breakpoints of [l]. *)
Definition toy_successors (h : Heap) (l : loc) (n : option nat)
    : Heap * list loc * list loc :=
  (heap_set h (S l) (set_breakpoints (h (S l)) (breakpoints (inspect (h l)))),
   [S l], []).

Definition engine (events : list (Expr * option (list Z))) : Engine :=
  {| E_simgr_step := toy_simgr_step;
     E_history_trim := fun s => s;
     E_concretizations := fun _ _ _ => events;
     E_successors := toy_successors;
     E_instruction_addrs := fun _ => [4100; 4102]%Z;
     E_satisfiable := fun _ => true;
     E_remove_preconstraints := fun s => s;
     E_reconstrain := fun s => s;
     E_make_stashes_dict := fun d => d |}.

Definition monitor (trace : list Z) (crash_mode : bool) : CrashMonitor :=
  __init__ (Some trace) true crash_mode (Some 4102%Z).

Definition world (sym_from : nat) (start : loc) (m : CrashMonitor) : World :=
  {| heap := heap0 sym_from; simgr := simgr_of start; self := m; calls := [] |}.

(** An engine without address concretizations, and the world of the
    scenario of the design: a trace of three blocks, the tracked state
    having executed three. *)
Definition E0 : Engine := engine [].
Definition w3 : World := world 100%nat 3%nat (monitor [4096; 4100; 4104]%Z true).

Definition with_crash_type (w : World) (t : CrashType) : World :=
  snd (modify_self (fun m => set_crash_type (set_last_state m (Some 3%nat)) (Some t)) w).

(** After [setup], a run in which SegFault was classified at state 3, the
    instruction pointer of the next state being symbolic. *)
Definition w_segfault : World :=
  with_crash_type (snd (setup (world 4%nat 3%nat (monitor [4096; 4100; 4104]%Z true))))
    QEMU_CRASH.

(** The same run, the tracked state carrying three recorded
    concretization events, the second without a candidate. *)
Definition recorded_world : World :=
  snd (modify_state 3%nat
         (fun s =>
            {| ip_symbolic := ip_symbolic s; bb_cnt := bb_cnt s; inspect := inspect s;
               constraints := constraints s;
               preconstrainer :=
                 {| address_concretization :=
                      [(expr_stdin, [4096; 4097]%Z); (expr_reg, []);
                       (expr_short, [8192]%Z)];
                    _constrained_addrs := [] |} |})
         w_segfault).

(** A run in which ExecStack was classified, with state 3 captured. *)
Definition w_exec_stack : World :=
  snd (modify_self (fun m => set_crash_state m (Some 3%nat))
         (with_crash_type w3 EXEC_STACK)).

(** An event with a resolved address on a state without constrained
    addresses. *)
Definition unmatched_event_state : SimState :=
  set_concretization (blank_state 3 false) expr_reg (Some [4096%Z]) false.

(** A state with one registered constrained address, resolving [e]. *)
Definition constrained_state (e : Expr) : SimState :=
  {| ip_symbolic := false; bb_cnt := 3;
     inspect := {| breakpoints := []; address_concretization_expr := e;
                   address_concretization_result := Some [4096%Z];
                   address_concretization_add_constraints := true |};
     constraints := [];
     preconstrainer := {| address_concretization := [];
                          _constrained_addrs := [expr_stdin] |} |}.

(** A crash-mode run with an empty trace, at its first tick. *)
Definition empty_trace_world : World :=
  world 100%nat 0%nat (monitor [] true).

(** A run of a monitor built with the default arguments: no trace. *)
Definition default_world : World :=
  world 100%nat 0%nat (__init__ None true false None).

(** A manager whose active stash holds two paths. *)
Definition diverged_world : World :=
  {| heap := heap0 100%nat;
     simgr := {| stashes := {[ "active" := [Some 3%nat; Some 4%nat] ]}; _project := 7 |};
     self := monitor [4096; 4100; 4104]%Z true;
     calls := [] |}.

(** An engine whose steps never have a successor. *)
Definition dead_end_engine : Engine :=
  {| E_simgr_step := toy_simgr_step;
     E_history_trim := fun s => s;
     E_concretizations := fun _ _ _ => [];
     E_successors := fun h _ _ => (h, [], []);
     E_instruction_addrs := fun _ => [4100; 4102]%Z;
     E_satisfiable := fun _ => true;
     E_remove_preconstraints := fun s => s;
     E_reconstrain := fun s => s;
     E_make_stashes_dict := fun d => d |}.

(** The run of [w_segfault], the tracked state carrying one registered
    constrained address. *)
Definition preconstrained_world : World :=
  snd (modify_state 3%nat
         (fun s =>
            {| ip_symbolic := ip_symbolic s; bb_cnt := bb_cnt s; inspect := inspect s;
               constraints := constraints s;
               preconstrainer :=
                 {| address_concretization := [];
                    _constrained_addrs := [expr_stdin] |} |})
         w_segfault).

(** After [setup], a crash-mode run at the end of its trace: the tracked
    state 3 has executed the three blocks of the trace, state 4 is concrete
    at its instruction pointer and state 5 is symbolic there. *)
Definition w_trace_end : World :=
  snd (setup (world 5%nat 3%nat (monitor [4096; 4100; 4104]%Z true))).

End Toy.

(** ** Runs of the component *)

(** The operations a scheduler (or the engine, for the classifier hook)
    invokes on the technique. *)
Inductive Op : Type :=
  | OpSetup
  | OpStep
  | OpComplete
  | OpCheckStack (l : loc).

Definition run_op (E : Engine) (op : Op) : M unit :=
  match op with
  | OpSetup => setup
  | OpStep => step E
  | OpComplete => complete E ;;; ret tt
  | OpCheckStack l => _check_stack l
  end.

(** The world after a sequence of operations, whatever their outcomes. *)
Fixpoint run_ops (E : Engine) (ops : list Op) (w : World) : World :=
  match ops with
  | [] => w
  | op :: rest => run_ops E rest (snd (run_op E op w))
  end.

(** The number of windups among the calls made so far. *)
Definition windups (w : World) : nat :=
  length (List.filter (fun c => bool_decide (c = CallWindup)) (calls w)).

(** The constraints the loop of lines 107-110 adds for a list of recorded
    events: one per event with a candidate, binding it to the first. *)
Definition binding_constraints (events : list (Expr * list Z)) : list Constraint :=
  flat_map (fun ev => match snd ev with
                      | v :: _ => [EqConst (fst ev) v]
                      | [] => []
                      end) events.

(** The world after [state.add_constraints(c)] for each [c] of a list, in
    order. *)
Definition add_all (l : loc) (cs : list Constraint) (w : World) : World :=
  fold_left (fun w c => snd (add_constraints l c w)) cs w.

(** The calls made so far are still there, later ones follow them. *)
Definition calls_extend : relation World :=
  fun w w' => exists cs, calls w' = calls w ++ cs.

(** The breakpoints registered on the state behind a reference. *)
Definition bps (w : World) (l : loc) : list BP :=
  breakpoints (inspect (heap w l)).

(** What the design's interface says of the collaborators, as far as
    breakpoints go: the successors of a step are copies of the stepped
    state and carry its breakpoints, the step leaves those of the stepped
    state alone, and the preconstrainer does not touch them. *)
Definition successors_inherit (E : Engine) : Prop :=
  forall h l n h' flat unconstrained,
    E_successors E h l n = (h', flat, unconstrained) ->
    breakpoints (inspect (h' l)) = breakpoints (inspect (h l))
    /\ forall s, In s (flat ++ unconstrained) ->
                 breakpoints (inspect (h' s)) = breakpoints (inspect (h l)).

Definition preconstrainer_keeps_breakpoints (E : Engine) : Prop :=
  forall s,
    breakpoints (inspect (E_remove_preconstraints E s)) = breakpoints (inspect s)
    /\ breakpoints (inspect (E_reconstrain E s)) = breakpoints (inspect s).

(** ** Relations between the world before and the world after *)

(** Whatever the outcome, the world a computation leaves is related to the
    world it started in. *)
Definition preserves (R : relation World) {A} (c : M A) : Prop :=
  forall w, R w (snd (c w)).

(** The worlds agree on a projection. *)
Definition same {X} (proj : World -> X) : relation World :=
  fun w w' => proj w' = proj w.

(** The classification is what it was, or it is [EXEC_STACK]. *)
Definition kept_or_exec : relation World :=
  fun w w' =>
    _crash_type (self w') = _crash_type (self w)
    \/ _crash_type (self w') = Some EXEC_STACK.

(** A classification that is set stays set, and [EXEC_STACK] stays
    [EXEC_STACK]. *)
Definition settled : relation World :=
  fun w w' =>
    (_crash_type (self w) = Some EXEC_STACK -> _crash_type (self w') = Some EXEC_STACK)
    /\ (_crash_type (self w) <> None -> _crash_type (self w') <> None).

(** The attributes of [self] that only [step] and windup assign. *)
Definition tracking (w : World) : option (list Z) * bool * bool * option Z * option loc :=
  (_trace (self w), _trim_history (self w), _crash_mode (self w),
   _crash_addr (self w), last_state (self w)).

(** The world in which [step] calls the engine: [self.last_state] refers to
    the single active state, line 61. *)
Definition tracked (w : World) (l : loc) : World :=
  snd (modify_self (fun m => set_last_state m (Some l)) w).

(** The construction-time attributes of [self]. *)
Definition config (w : World) : option (list Z) * bool * bool * option Z :=
  (_trace (self w), _trim_history (self w), _crash_mode (self w),
   _crash_addr (self w)).

(** As long as [P] holds of the world, it keeps holding and the
    classification is kept or becomes [EXEC_STACK]. *)
Definition guarded (P : World -> Prop) : relation World :=
  fun w w' => P w -> P w' /\ kept_or_exec w w'.

(** Trace exhaustion cannot be declared: not in crash mode, or no trace. *)
Definition no_fault_expected (w : World) : Prop :=
  _crash_mode (self w) = false \/ _trace (self w) = None.

(** The calls added include no step of the manager. *)
Definition no_manager_step : relation World :=
  fun w w' => exists cs, calls w' = calls w ++ cs /\ ~ In CallSimgrStep cs.

(** The world in which [step] calls the engine for the tracked state [l]:
    lines 61-65 done, the history trimmed if the monitor asks for it. *)
Definition before_engine_step (E : Engine) (w : World) (l : loc) : World :=
  if _trim_history (self w) && negb (_crash_mode (self w))
  then snd (modify_state l (E_history_trim E) (tracked w l))
  else tracked w l.

(** * Properties *)

(** ** Index extraction on concrete variable names *)

Example to_indices_names :
  _to_indices ["file_/dev/stdin_0_1f_7_8"; "reg_rax_3_64"; "file_/dev/stdin_0_a_2_8"]
  = Ok [10; 31].
Proof. reflexivity. Qed.

Example to_indices_short_name :
  _to_indices ["file_/dev/stdin"] = Raise IndexError.
Proof. reflexivity. Qed.

(** ** Instruction-count selection *)


Lemma py_in_In (a : Z) (xs : list Z) :
  py_in (Some a) xs = true <-> In a xs.
Proof.
  simpl. rewrite existsb_exists. split.
  - intros (x & Hx & Heq). apply Z.eqb_eq in Heq. now subst.
  - intros H. exists a. split; [assumption | apply Z.eqb_refl].
Qed.



(** ** The subroutine-return emulator *)

Section EmulatorProperties.

Variables IRSB SymState SymbolicIRSB Exit : Type.
Variable pyvex_IRSB : string -> Z -> string -> IRSB.
Variable copy_after : SymState -> SymState.
Variable mk_SymbolicIRSB : IRSB -> SymState -> SymbolicIRSB.
Variable exits_of : SymbolicIRSB -> list Exit.

Let emulate := SArch.emulate_subroutine IRSB SymState SymbolicIRSB Exit pyvex_IRSB copy_after mk_SymbolicIRSB exits_of.
Let ret_exits (call_imark : SArch.IMark) (state : SymState) : list Exit :=
  exits_of (SArch.ret_sirsb IRSB SymState SymbolicIRSB pyvex_IRSB copy_after mk_SymbolicIRSB call_imark state).

(** C10. [emulate_subroutine] raises [SymbolicArchError] exactly when
    the emulation of the injected return instruction yields a number of
    exits other than one, and otherwise returns that single exit; the
    error is the call's outcome, no handler of this layer intercepts it. *)
Theorem emulate_subroutine_single_exit (call_imark : SArch.IMark) (state : SymState) :
  ((exists msg, emulate call_imark state = Raise (SymbolicArchError msg))
     <-> length (ret_exits call_imark state) <> 1%nat)
  /\ (forall x, ret_exits call_imark state = [x] -> emulate call_imark state = Ok x)
  /\ (forall x, emulate call_imark state = Ok x -> ret_exits call_imark state = [x]).
Proof.
  unfold emulate, ret_exits, SArch.emulate_subroutine.
  destruct (exits_of _) as [|x [|y rest]] eqn:Hex; simpl.
  - split; [|split].
    + split; [intros _; lia | intros _; eexists; reflexivity].
    + intros x H. discriminate.
    + intros x H. discriminate.
  - split; [|split].
    + split; [intros [msg H]; discriminate | intros H; lia].
    + intros x' H. injection H as ->. reflexivity.
    + intros x' H. injection H as ->. reflexivity.
  - split; [|split].
    + split; [intros _; lia | intros _; eexists; reflexivity].
    + intros x' H. discriminate.
    + intros x' H. discriminate.
Qed.

End EmulatorProperties.

(** ** The interceptor's hooks *)

Lemma _add_constraints_loop_nonempty (hit : list Z) (actions : list Expr) :
  actions <> [] ->
  _add_constraints_loop hit actions = Raise (NameError "self").
Proof. destruct actions; [congruence | reflexivity]. Qed.

Lemma _add_constraints_loop_empty (hit : list Z) :
  _add_constraints_loop hit [] = Ok false.
Proof. reflexivity. Qed.

(** The matching helper never answers [True]. *)
Lemma _add_constraints_never_true (state : SimState) :
  _add_constraints state <> Ok true.
Proof.
  unfold _add_constraints.
  destruct (_to_indices _) as [hit|e]; simpl; [|discriminate].
  destruct (_constrained_addrs (preconstrainer state)); simpl; discriminate.
Qed.

(** The post-hook returns the state as it found it, or raises. *)
Lemma _grab_concretization_results_no_record (state state' : SimState) :
  _grab_concretization_results state = Ok state' -> state' = state.
Proof.
  unfold _grab_concretization_results.
  destruct (_add_constraints state) as [[|]|e] eqn:Hadd; simpl.
  - destruct (address_concretization_result (inspect state)); simpl.
    + discriminate.
    + congruence.
  - congruence.
  - discriminate.
Qed.




(** C9 (as the code has it). On a state whose preconstrainer has at least
    one registered constrained address, [_add_constraints] raises, and both
    hooks raise the same exception, so the post-hook appends nothing; the
    exception is the [NameError] for [self] whenever the index extraction
    on the expression's own variables has succeeded. *)
Theorem hooks_fail_on_constrained_state (state : SimState) :
  _constrained_addrs (preconstrainer state) <> [] ->
  exists e,
    _add_constraints state = Raise e
    /\ _dont_add_constraints state = Raise e
    /\ _grab_concretization_results state = Raise e
    /\ (forall hit,
          _to_indices (variables (address_concretization_expr (inspect state))) = Ok hit ->
          e = NameError "self").
Proof.
  intros Hne. unfold _dont_add_constraints, _grab_concretization_results, _add_constraints.
  destruct (_to_indices _) as [hit|e] eqn:Hhit; simpl.
  - rewrite (_add_constraints_loop_nonempty hit _ Hne). simpl.
    exists (NameError "self"). repeat split; reflexivity.
  - exists e. repeat split; try reflexivity. intros hit H. discriminate.
Qed.

Lemma hooks_fail_on_constrained_state_witness :
  exists e,
    _add_constraints (Toy.constrained_state Toy.expr_stdin) = Raise e
    /\ _dont_add_constraints (Toy.constrained_state Toy.expr_stdin) = Raise e
    /\ _grab_concretization_results (Toy.constrained_state Toy.expr_stdin) = Raise e
    /\ (forall hit,
          _to_indices (variables Toy.expr_stdin) = Ok hit -> e = NameError "self").
Proof.
  apply (hooks_fail_on_constrained_state (Toy.constrained_state Toy.expr_stdin)).
  simpl. discriminate.
Defined.

(** C9 as stated fails: with a constrained address registered, an
    expression over a variable named [file_/dev/stdin] makes the helper
    raise the [IndexError] of [_to_indices], line 186, before line 178 is
    reached. *)
Lemma add_constraints_name_error_counterexample :
  ~ (forall state : SimState,
       _constrained_addrs (preconstrainer state) <> [] ->
       exists name, _add_constraints state = Raise (NameError name)).
Proof.
  intros H.
  destruct (H (Toy.constrained_state Toy.expr_short)) as (name & Hraise).
  - simpl. discriminate.
  - vm_compute in Hraise. discriminate.
Qed.

(** ** Preservation of a relation between the worlds before and after *)

Section Preservation.

Context (R : relation World) `{!PreOrder R}.

Local Lemma R_refl : forall w, R w w.
Proof. intros w. reflexivity. Qed.

Local Lemma R_trans : forall w1 w2 w3, R w1 w2 -> R w2 w3 -> R w1 w3.
Proof. intros w1 w2 w3 H12 H23. etransitivity; eassumption. Qed.

Lemma preserves_ret {A} (a : A) : preserves R (ret a).
Proof. intros w. apply R_refl. Qed.

Lemma preserves_raise {A} (e : exn) : preserves R (@raise A e).
Proof. intros w. apply R_refl. Qed.

Lemma preserves_lift {A} (o : outcome A) : preserves R (lift o).
Proof. intros w. apply R_refl. Qed.

Lemma preserves_get_world : preserves R get_world.
Proof. intros w. apply R_refl. Qed.

Lemma preserves_get_self : preserves R get_self.
Proof. intros w. apply R_refl. Qed.

Lemma preserves_get_simgr : preserves R get_simgr.
Proof. intros w. apply R_refl. Qed.

Lemma preserves_get_heap : preserves R get_heap.
Proof. intros w. apply R_refl. Qed.

Lemma preserves_read_state (l : loc) : preserves R (read_state l).
Proof. intros w. apply R_refl. Qed.

Lemma preserves_deref (r : option loc) : preserves R (deref r).
Proof. destruct r; intros w; apply R_refl. Qed.

Lemma preserves_bind {A B} (c : M A) (k : A -> M B) :
  preserves R c -> (forall a, preserves R (k a)) -> preserves R (bind c k).
Proof.
  intros Hc Hk w. unfold bind. specialize (Hc w).
  destruct (c w) as [[a|e] w']; simpl in *.
  - eapply R_trans; [exact Hc | apply Hk].
  - exact Hc.
Qed.

Lemma preserves_for_each {A} (xs : list A) (body : A -> M unit) :
  (forall x, preserves R (body x)) -> preserves R (for_each xs body).
Proof.
  intros Hbody. induction xs as [|x rest IH]; simpl.
  - apply preserves_ret.
  - apply preserves_bind; [apply Hbody | intros _; exact IH].
Qed.

Lemma preserves_update_state (l : loc) (f : SimState -> outcome SimState) :
  (forall h, preserves R (put_heap h)) -> preserves R (update_state l f).
Proof.
  intros Hput w. unfold update_state.
  destruct (f (heap w l)); [apply Hput | apply R_refl].
Qed.

End Preservation.

(** Breaks a computation into its primitive steps. *)
Ltac preserves_step :=
  match goal with
  | |- PreOrder _ => typeclasses eauto
  | |- forall _, preserves _ _ => intros ?
  | |- preserves _ (bind _ _) => apply preserves_bind
  | |- preserves _ (ret _) => apply preserves_ret
  | |- preserves _ (raise _) => apply preserves_raise
  | |- preserves _ (lift _) => apply preserves_lift
  | |- preserves _ get_world => apply preserves_get_world
  | |- preserves _ get_self => apply preserves_get_self
  | |- preserves _ get_simgr => apply preserves_get_simgr
  | |- preserves _ get_heap => apply preserves_get_heap
  | |- preserves _ (read_state _) => apply preserves_read_state
  | |- preserves _ (deref _) => apply preserves_deref
  | |- preserves _ (for_each _ _) => apply preserves_for_each
  | |- preserves _ (modify_state _ _) => apply preserves_update_state
  | |- preserves _ (update_state _ _) => apply preserves_update_state
  | |- preserves _ (if ?b then _ else _) => destruct b
  | |- preserves _ (match ?x with _ => _ end) => destruct x
  | |- preserves _ (let (_, _) := ?x in _) => destruct x
  end.

#[global] Instance same_preorder {X} (proj : World -> X) : PreOrder (same proj).
Proof. split; unfold same; [intros w | intros w1 w2 w3]; congruence. Qed.

#[global] Instance kept_or_exec_preorder : PreOrder kept_or_exec.
Proof.
  split.
  - intros w. left. reflexivity.
  - unfold kept_or_exec. intros w1 w2 w3 [H12|H12] [H23|H23]; auto.
    + left. congruence.
    + right. congruence.
Qed.

(** Leaves: a primitive that does not touch what the relation is about. *)
Ltac untouched :=
  match goal with
  | |- forall h : Heap, preserves _ (put_heap h) => intros ? ?; first [reflexivity | left; reflexivity]
  | |- preserves _ (put_heap _) => intros ?; first [reflexivity | left; reflexivity]
  | |- preserves _ (put_simgr _) => intros ?; first [reflexivity | left; reflexivity]
  | |- preserves _ (record_call _) => intros ?; first [reflexivity | left; reflexivity]
  | |- preserves _ (modify_self _) => intros ?; first [reflexivity | left; reflexivity]
  end.

Ltac preserves_auto :=
  repeat first [ untouched | preserves_step ].

(** *** What the hooks leave alone *)

Lemma _check_stack_same_calls (l : loc) : preserves (same calls) (_check_stack l).
Proof. unfold _check_stack. preserves_auto. Qed.

Lemma _check_stack_same_tracking (l : loc) : preserves (same tracking) (_check_stack l).
Proof. unfold _check_stack. preserves_auto. Qed.

Lemma _check_stack_kept_or_exec (l : loc) : preserves kept_or_exec (_check_stack l).
Proof.
  unfold _check_stack. preserves_auto.
  - intros w. right. reflexivity.
Qed.

Lemma run_action_same_calls (l : loc) (a : Action) : preserves (same calls) (run_action l a).
Proof. destruct a; simpl; [apply _check_stack_same_calls | preserves_auto ..]. Qed.

Lemma run_action_same_tracking (l : loc) (a : Action) :
  preserves (same tracking) (run_action l a).
Proof. destruct a; simpl; [apply _check_stack_same_tracking | preserves_auto ..]. Qed.

Lemma run_action_kept_or_exec (l : loc) (a : Action) :
  preserves kept_or_exec (run_action l a).
Proof. destruct a; simpl; [apply _check_stack_kept_or_exec | preserves_auto ..]. Qed.

Lemma fire_same_calls (l : loc) (ev : EventType) (wh : When) :
  preserves (same calls) (fire l ev wh).
Proof. unfold fire. preserves_auto. apply run_action_same_calls. Qed.

Lemma fire_same_tracking (l : loc) (ev : EventType) (wh : When) :
  preserves (same tracking) (fire l ev wh).
Proof. unfold fire. preserves_auto. apply run_action_same_tracking. Qed.

Lemma fire_kept_or_exec (l : loc) (ev : EventType) (wh : When) :
  preserves kept_or_exec (fire l ev wh).
Proof. unfold fire. preserves_auto. apply run_action_kept_or_exec. Qed.

(** *** The manager's step *)

Lemma simgr_step_same_tracking (E : Engine) : preserves (same tracking) (simgr_step E).
Proof. unfold simgr_step. preserves_auto. apply fire_same_tracking. Qed.

Lemma simgr_step_kept_or_exec (E : Engine) : preserves kept_or_exec (simgr_step E).
Proof. unfold simgr_step. preserves_auto. apply fire_kept_or_exec. Qed.

Lemma for_each_fire_same_calls (ls : list loc) :
  preserves (same calls) (for_each ls (fun l => fire l ev_state_step BP_AFTER)).
Proof. preserves_auto. apply fire_same_calls. Qed.

(** A step of the manager is one call into the engine. *)
Lemma simgr_step_calls (E : Engine) (w : World) :
  calls (snd (simgr_step E w)) = calls w ++ [CallSimgrStep].
Proof.
  unfold simgr_step, bind, record_call, get_world. simpl.
  destruct (E_simgr_step E (heap w) (simgr w)) as [[h sg] fired]. simpl.
  match goal with
  | |- calls (snd (for_each _ _ ?w2)) = _ =>
      exact (for_each_fire_same_calls fired w2)
  end.
Qed.



(** ** The classification as a state machine *)

#[global] Instance settled_preorder : PreOrder settled.
Proof.
  split.
  - intros w. split; auto.
  - intros w1 w2 w3 [Ha Hb] [Hc Hd]. split; auto.
Qed.

Lemma kept_or_exec_settled (w w' : World) : kept_or_exec w w' -> settled w w'.
Proof.
  intros [H|H]; split; intros Hw.
  - congruence.
  - congruence.
  - exact H.
  - rewrite H. discriminate.
Qed.

Lemma preserves_weaken (R R' : relation World) {A} (c : M A) :
  (forall w w', R w w' -> R' w w') -> preserves R c -> preserves R' c.
Proof. intros Hsub Hc w. apply Hsub, Hc. Qed.

Lemma concretize_kept_or_exec (l : loc) (ev : Expr * option (list Z)) :
  preserves kept_or_exec (concretize l ev).
Proof. unfold concretize. preserves_auto; apply fire_kept_or_exec. Qed.

Lemma state_step_kept_or_exec (E : Engine) (l : loc) (n : option nat) :
  preserves kept_or_exec (state_step E l n).
Proof. unfold state_step. preserves_auto. apply concretize_kept_or_exec. Qed.

Lemma inspect_b_kept_or_exec (l : loc) (ev : EventType) (wh : When) (a : Action) :
  preserves kept_or_exec (inspect_b l ev wh a).
Proof. unfold inspect_b. preserves_auto. Qed.

Lemma _crash_windup_kept_or_exec (E : Engine) : preserves kept_or_exec (_crash_windup E).
Proof.
  unfold _crash_windup, windup_prepare, windup_resume, windup_finish,
    adopt_successor, add_concretized_constraints, constrain_concretized,
    add_constraints, remove_breakpoint.
  preserves_auto;
    first [apply state_step_kept_or_exec | apply inspect_b_kept_or_exec].
Qed.

Lemma complete_kept_or_exec (E : Engine) : preserves kept_or_exec (complete E).
Proof.
  unfold complete. preserves_auto. apply _crash_windup_kept_or_exec.
Qed.

Lemma setup_kept_or_exec : preserves kept_or_exec setup.
Proof. unfold setup. preserves_auto. apply inspect_b_kept_or_exec. Qed.

Lemma check_deadend_settled (E : Engine) : preserves settled (check_deadend E).
Proof.
  intros w. unfold check_deadend, bind. simpl.
  case_bool_decide as Hexec.
  - simpl. reflexivity.
  - destruct (last_state (self w)) as [l|]; simpl; [|reflexivity].
    destruct (_trace (self w)) as [tr|]; simpl; [|reflexivity].
    destruct (Nat.leb (length tr) (bb_cnt (heap w l)) && _crash_mode (self w));
      simpl; [|reflexivity].
    destruct (simgr_step E w) as [[[]|e] w1] eqn:Hrun; simpl.
    + split; [intros H; contradiction | intros _; discriminate].
    + apply kept_or_exec_settled.
      pose proof (simgr_step_kept_or_exec E w) as H. rewrite Hrun in H. exact H.
Qed.

Lemma step_settled (E : Engine) : preserves settled (step E).
Proof.
  unfold step. preserves_auto;
    match goal with
    | |- preserves settled (check_deadend _) => apply check_deadend_settled
    | |- _ =>
        repeat intros ?;
        apply (preserves_weaken kept_or_exec settled);
        [exact kept_or_exec_settled | preserves_auto]
    end;
    apply simgr_step_kept_or_exec.
Qed.

Lemma run_op_settled (E : Engine) (op : Op) : preserves settled (run_op E op).
Proof.
  destruct op; simpl.
  - apply (preserves_weaken kept_or_exec settled);
      [exact kept_or_exec_settled | apply setup_kept_or_exec].
  - apply step_settled.
  - apply (preserves_weaken kept_or_exec settled);
      [exact kept_or_exec_settled|].
    preserves_auto. apply complete_kept_or_exec.
  - apply (preserves_weaken kept_or_exec settled);
      [exact kept_or_exec_settled | apply _check_stack_kept_or_exec].
Qed.

Lemma run_ops_settled (E : Engine) (ops : list Op) :
  forall w, settled w (run_ops E ops w).
Proof.
  induction ops as [|op rest IH]; intros w; simpl.
  - reflexivity.
  - etransitivity; [apply (run_op_settled E op w) | apply IH].
Qed.

(** Between operations: over any sequence of the component's operations
    (setup, step, complete, the classifier hook), whatever their outcomes,
    a classification that is ExecStack when an operation is invoked is
    ExecStack when it returns, and a classification that is set is never
    cleared. What happens inside one [step] is another matter, see
    [exec_stack_overwritten_by_forced_step]. *)
Theorem classification_settled (E : Engine) (ops : list Op) (w : World) :
  (_crash_type (self w) = Some EXEC_STACK ->
   _crash_type (self (run_ops E ops w)) = Some EXEC_STACK)
  /\ (_crash_type (self w) <> None ->
      _crash_type (self (run_ops E ops w)) <> None).
Proof. exact (run_ops_settled E ops w). Qed.

Lemma classification_settled_witness :
  _crash_type (self (run_ops Toy.E0 [OpStep; OpComplete; OpStep] Toy.w_exec_stack))
    = Some EXEC_STACK
  /\ _crash_type (self (run_ops Toy.E0 [OpComplete; OpStep] Toy.w_segfault)) <> None.
Proof.
  split.
  - apply (proj1 (classification_settled Toy.E0 [OpStep; OpComplete; OpStep]
                    Toy.w_exec_stack)).
    reflexivity.
  - apply (proj2 (classification_settled Toy.E0 [OpComplete; OpStep] Toy.w_segfault)).
    discriminate.
Defined.

(** SegFault is not kept either: with SegFault classified, a further
    [step] whose engine step reaches a state with a symbolic instruction
    pointer lets the classifier hook replace SegFault by ExecStack. *)
Lemma segfault_overwritten_counterexample :
  ~ (forall (E : Engine) (op : Op) (w : World),
       _crash_type (self w) = Some QEMU_CRASH ->
       _crash_type (self (snd (run_op E op w))) = Some QEMU_CRASH).
Proof.
  intros H.
  specialize (H Toy.E0 OpStep Toy.w_segfault eq_refl).
  vm_compute in H. discriminate.
Qed.

(** C5. The classification is not write-once in the code. In a crash-mode
    run at the end of its trace nothing is classified when [step] is
    called and nothing after its engine step, so the check of line 69
    passes; the forced step of line 74 then reaches a state whose
    instruction pointer is symbolic, the classifier sets ExecStack and
    captures that state, and line 75 replaces ExecStack by SegFault,
    unguarded, the captured state staying in [_crash_state]. *)
Theorem exec_stack_overwritten_by_forced_step :
  let w := Toy.w_trace_end in
  let after_engine_step := snd (simgr_step Toy.E0 (tracked w 3%nat)) in
  let after_forced_step := snd (simgr_step Toy.E0 after_engine_step) in
  _crash_type (self w) = None
  /\ _crash_type (self after_engine_step) = None
  /\ _crash_type (self after_forced_step) = Some EXEC_STACK
  /\ _crash_state (self after_forced_step) = Some 5%nat
  /\ step Toy.E0 w
     = (Ok tt,
        snd (modify_self (fun m => set_crash_type m (Some QEMU_CRASH))
               after_forced_step))
  /\ _crash_type (self (snd (step Toy.E0 w))) = Some QEMU_CRASH
  /\ _crash_state (self (snd (step Toy.E0 w))) = Some 5%nat.
Proof.
  repeat split; vm_compute; reflexivity.
Qed.

(** ** The completion check *)

(** C2. [complete()] returns true exactly when a classification is set
    (it returns false without one and never returns false with one). With
    ExecStack it returns true and the [crashed] stash holds exactly the
    state the classifier captured, no windup being run; with SegFault,
    whenever it returns, the [crashed] stash holds exactly the state windup
    returned, and it does return true whenever windup returns a state (the
    trace not being empty). *)
Theorem complete_reports_crash (E : Engine) (w : World) :
  (forall d, E_make_stashes_dict E d !! "crashed" = d !! "crashed") ->
  (forall b w', complete E w = (Ok b, w') ->
                (b = true <-> _crash_type (self w) <> None))
  /\ (_crash_type (self w) = None -> complete E w = (Ok false, w))
  /\ (_crash_type (self w) = Some EXEC_STACK ->
      exists w',
        complete E w = (Ok true, w')
        /\ stashes (simgr w') !! "crashed" = Some [_crash_state (self w)]
        /\ self w' = self w
        /\ calls w' = calls w)
  /\ (_crash_type (self w) = Some QEMU_CRASH ->
      forall b w', complete E w = (Ok b, w') ->
        exists s ww,
          _crash_windup E w = (Ok s, ww)
          /\ stashes (simgr w') !! "crashed" = Some [Some s]
          /\ _crash_state (self w') = Some s)
  /\ (_crash_type (self w) = Some QEMU_CRASH ->
      forall tr x s ww,
        _trace (self w) = Some tr -> py_last tr = Ok x ->
        _crash_windup E w = (Ok s, ww) ->
        exists w', complete E w = (Ok true, w')).
Proof.
  intros Hmk. unfold complete, bind. simpl.
  destruct (_crash_type (self w)) as [[|]|] eqn:Htype; simpl.
  - (* ExecStack *)
    split; [|split; [|split; [|split]]].
    + intros b w' H. injection H as <- <-. split; [discriminate | reflexivity].
    + discriminate.
    + intros _. eexists. split; [reflexivity|]. simpl.
      rewrite Hmk, lookup_insert_eq. auto.
    + discriminate.
    + discriminate.
  - (* SegFault *)
    destruct (_trace (self w)) as [tr|] eqn:Htr; simpl.
    2:{ repeat split; intros; try discriminate; congruence. }
    destruct (py_last tr) as [x|e] eqn:Hlast; simpl.
    2:{ repeat split; intros; try discriminate; congruence. }
    destruct (_crash_windup E w) as [[s|e] ww] eqn:Hwind; simpl.
    2:{ repeat split; intros; try discriminate; congruence. }
    split; [|split; [|split; [|split]]].
    + intros b w' H. injection H as <- <-. split; [discriminate | reflexivity].
    + discriminate.
    + discriminate.
    + intros _ b w' H. injection H as <- <-. exists s, ww. simpl.
      rewrite Hmk, lookup_insert_eq. auto.
    + intros _ tr' x' s' ww' _ _ _. eexists. reflexivity.
  - (* no classification *)
    split; [|split; [|split; [|split]]].
    + intros b w' H. injection H as <- <-. split; [discriminate | congruence].
    + reflexivity.
    + discriminate.
    + discriminate.
    + discriminate.
Qed.

Lemma complete_reports_crash_witness :
  (exists w',
     complete Toy.E0 Toy.w_exec_stack = (Ok true, w')
     /\ stashes (simgr w') !! "crashed" = Some [_crash_state (self Toy.w_exec_stack)]
     /\ self w' = self Toy.w_exec_stack
     /\ calls w' = calls Toy.w_exec_stack)
  /\ (exists w', complete Toy.E0 Toy.w_segfault = (Ok true, w')).
Proof.
  split.
  - apply (proj1 (proj2 (proj2
             (complete_reports_crash Toy.E0 Toy.w_exec_stack (fun d => eq_refl))))).
    reflexivity.
  - eapply (proj2 (proj2 (proj2 (proj2
              (complete_reports_crash Toy.E0 Toy.w_segfault (fun d => eq_refl)))))).
    + reflexivity.
    + reflexivity.
    + vm_compute. reflexivity.
    + vm_compute. reflexivity.
Defined.

(** *** Counting windups *)

Lemma windups_record_call (c : Call) (w : World) :
  windups (snd (record_call c w))
  = (windups w + (if bool_decide (c = CallWindup) then 1 else 0))%nat.
Proof.
  unfold windups, record_call. simpl.
  rewrite List.filter_app, length_app. simpl.
  destruct (bool_decide (c = CallWindup)); reflexivity.
Qed.

Lemma record_call_same_windups (c : Call) :
  c <> CallWindup -> preserves (same windups) (record_call c).
Proof.
  intros Hc w. unfold same. rewrite windups_record_call.
  rewrite bool_decide_eq_false_2 by exact Hc. lia.
Qed.

Ltac same_windups_leaf :=
  match goal with
  | |- preserves (same windups) (record_call _) =>
      apply record_call_same_windups; discriminate
  end.

Lemma fire_same_windups (l : loc) (ev : EventType) (wh : When) :
  preserves (same windups) (fire l ev wh).
Proof. unfold fire, run_action, _check_stack. preserves_auto. Qed.

Lemma state_step_same_windups (E : Engine) (l : loc) (n : option nat) :
  preserves (same windups) (state_step E l n).
Proof.
  unfold state_step, concretize.
  preserves_auto; first [same_windups_leaf | apply fire_same_windups].
Qed.

Lemma simgr_step_same_windups (E : Engine) : preserves (same windups) (simgr_step E).
Proof.
  unfold simgr_step.
  preserves_auto; first [same_windups_leaf | apply fire_same_windups].
Qed.

(** What follows the entry of windup makes no further windup. *)
Lemma windup_body_same_windups (E : Engine) (state : loc) :
  preserves (same windups)
    (let* (bp1, bp2) := windup_prepare E state in
     add_concretized_constraints state ;;;
     windup_resume E state bp1 bp2).
Proof.
  unfold windup_prepare, windup_resume, windup_finish, adopt_successor,
    add_concretized_constraints, constrain_concretized, add_constraints,
    remove_breakpoint, inspect_b.
  preserves_auto; first [same_windups_leaf | apply state_step_same_windups].
Qed.

Lemma _crash_windup_windups (E : Engine) (w : World) :
  windups (snd (_crash_windup E w)) = S (windups w).
Proof.
  unfold _crash_windup. unfold bind at 1. simpl.
  unfold bind at 1. simpl.
  match goal with
  | |- windups (snd (bind (deref ?r) ?k ?w2)) = _ =>
      assert (Hrest : preserves (same windups) (bind (deref r) k));
      [ | rewrite (Hrest w2) ]
  end.
  - apply preserves_bind;
      first [ typeclasses eauto
            | apply preserves_deref; typeclasses eauto
            | intros state; apply windup_body_same_windups ].
  - unfold windups. simpl. rewrite List.filter_app, length_app. simpl. lia.
Qed.

Lemma run_op_complete_world (E : Engine) (w : World) :
  snd (run_op E OpComplete w) = snd (complete E w).
Proof.
  simpl. unfold bind. destruct (complete E w) as [[b|e] w']; reflexivity.
Qed.

(** One call of [complete()]: true if it returns with a classification
    set, no windup under ExecStack, one windup by a returning call under
    SegFault and never more than one. *)
Lemma complete_once (E : Engine) (w : World) :
  _crash_type (self w) <> None ->
  (forall b, fst (complete E w) = Ok b -> b = true)
  /\ (_crash_type (self w) = Some EXEC_STACK ->
      windups (snd (complete E w)) = windups w)
  /\ (_crash_type (self w) = Some QEMU_CRASH ->
      forall b, fst (complete E w) = Ok b ->
                windups (snd (complete E w)) = S (windups w))
  /\ (windups (snd (complete E w)) <= S (windups w))%nat.
Proof.
  intros Hset. pose proof (_crash_windup_windups E w) as Hwind.
  unfold complete, bind in *. simpl.
  destruct (_crash_type (self w)) as [[|]|]; [| |congruence]; simpl.
  - repeat split; intros; try congruence. unfold windups. simpl. lia.
  - destruct (_trace (self w)) as [tr|]; simpl;
      [|repeat split; intros; try discriminate; lia].
    destruct (py_last tr); simpl;
      [|repeat split; intros; try discriminate; lia].
    destruct (_crash_windup E w) as [[s|e] ww]; simpl in *.
    + repeat split; intros; try congruence.
      * exact Hwind.
      * unfold windups in *. simpl. lia.
    + repeat split; intros; try discriminate. lia.
Qed.

Lemma complete_n_windups (E : Engine) (n : nat) :
  forall w,
    (windups (run_ops E (repeat OpComplete n) w) <= windups w + n)%nat
    /\ (_crash_type (self w) = Some EXEC_STACK ->
        windups (run_ops E (repeat OpComplete n) w) = windups w).
Proof.
  induction n as [|n IH]; intros w; cbn [repeat run_ops].
  - split; [lia | reflexivity].
  - rewrite run_op_complete_world.
    destruct (IH (snd (complete E w))) as [Hle Hexec].
    destruct (_crash_type (self w)) as [t|] eqn:Ht.
    + destruct (complete_once E w) as (_ & Hex & _ & Hone); [congruence|].
      rewrite Ht in Hex. split.
      * lia.
      * intros Heq. rewrite Hexec.
        -- apply Hex. exact Heq.
        -- pose proof (complete_kept_or_exec E w) as [Hk|Hk]; congruence.
    + split; [|discriminate].
      assert (Hsame : snd (complete E w) = w).
      { unfold complete, bind. simpl. rewrite Ht. reflexivity. }
      rewrite Hsame in Hle |- *. lia.
Qed.

(** C4 (as the code has it). Once a classification exists it is still
    there after any number of calls of [complete()], and every further call
    that returns, returns true. No call runs windup under ExecStack; under
    SegFault every returning call runs windup once more, and [n] calls run
    it at most [n] times. *)
Theorem complete_repeated (E : Engine) (w : World) (n : nat) :
  _crash_type (self w) <> None ->
  let wn := run_ops E (repeat OpComplete n) w in
  _crash_type (self wn) <> None
  /\ (forall b, fst (complete E wn) = Ok b -> b = true)
  /\ (_crash_type (self w) = Some EXEC_STACK -> windups wn = windups w)
  /\ (_crash_type (self wn) = Some QEMU_CRASH ->
      forall b, fst (complete E wn) = Ok b ->
                windups (snd (complete E wn)) = S (windups wn))
  /\ (windups wn <= windups w + n)%nat.
Proof.
  intros Hset wn.
  assert (Hn : _crash_type (self wn) <> None).
  { apply (proj2 (run_ops_settled E (repeat OpComplete n) w)). exact Hset. }
  destruct (complete_once E wn Hn) as (Htrue & _ & Hseg & _).
  destruct (complete_n_windups E n w) as [Hle Hexec].
  repeat split; assumption.
Qed.

Lemma complete_repeated_witness :
  let wn := run_ops Toy.E0 (repeat OpComplete 2) Toy.w_segfault in
  _crash_type (self wn) <> None
  /\ (forall b, fst (complete Toy.E0 wn) = Ok b -> b = true)
  /\ (_crash_type (self Toy.w_segfault) = Some EXEC_STACK ->
      windups wn = windups Toy.w_segfault)
  /\ (_crash_type (self wn) = Some QEMU_CRASH ->
      forall b, fst (complete Toy.E0 wn) = Ok b ->
                windups (snd (complete Toy.E0 wn)) = S (windups wn))
  /\ (windups wn <= windups Toy.w_segfault + 2)%nat.
Proof.
  apply (complete_repeated Toy.E0 Toy.w_segfault 2). discriminate.
Defined.

(** C4 as stated fails: under SegFault two calls of [complete()] run
    windup twice. *)
Lemma windup_at_most_once_counterexample :
  ~ (forall (E : Engine) (w : World) (n : nat),
       _crash_type (self w) <> None ->
       (windups (run_ops E (repeat OpComplete n) w) <= windups w + 1)%nat).
Proof.
  intros H.
  specialize (H Toy.E0 Toy.w_segfault 2%nat).
  assert (Hset : _crash_type (self Toy.w_segfault) <> None) by discriminate.
  specialize (H Hset). vm_compute in H.
  repeat match goal with
         | Hle : (S _ <= S _)%nat |- _ => apply le_S_n in Hle
         end.
  inversion H.
Qed.

(** ** Windup: the constraints of the recorded concretizations *)

Lemma add_constraints_spec (l : loc) (c : Constraint) (w : World) :
  add_constraints l c w = (Ok tt, snd (add_constraints l c w))
  /\ constraints (heap (snd (add_constraints l c w)) l) = constraints (heap w l) ++ [c]
  /\ calls (snd (add_constraints l c w)) = calls w ++ [CallAddConstraints l c]
  /\ self (snd (add_constraints l c w)) = self w.
Proof.
  unfold add_constraints, bind, record_call, modify_state, update_state, put_heap,
    heap_set. simpl. rewrite Nat.eqb_refl. auto.
Qed.

Lemma add_all_spec (l : loc) (cs : list Constraint) :
  forall w,
    constraints (heap (add_all l cs w) l) = constraints (heap w l) ++ cs
    /\ calls (add_all l cs w) = calls w ++ map (CallAddConstraints l) cs
    /\ self (add_all l cs w) = self w.
Proof.
  induction cs as [|c rest IH]; intros w.
  - simpl. rewrite !app_nil_r. auto.
  - change (add_all l (c :: rest) w)
      with (add_all l rest (snd (add_constraints l c w))).
    destruct (IH (snd (add_constraints l c w))) as (Hc & Hcalls & Hself).
    destruct (add_constraints_spec l c w) as (_ & Hc1 & Hcalls1 & Hself1).
    rewrite Hc, Hcalls, Hself, Hc1, Hcalls1, Hself1. simpl.
    rewrite <- !app_assoc. auto.
Qed.

Lemma constrain_concretized_spec (l : loc) (ev : Expr * list Z) (w : World) :
  constrain_concretized l ev w
  = (Ok tt,
     add_all l (match snd ev with
                | v :: _ => [EqConst (fst ev) v]
                | [] => []
                end) w).
Proof. destruct ev as [var [|v vals]]; reflexivity. Qed.

(** The loop of lines 107-110 returns normally and adds, in the order of
    the recorded events, the binding of each event with a candidate. *)
Lemma add_concretized_constraints_spec (l : loc) (w : World) :
  add_concretized_constraints l w
  = (Ok tt,
     add_all l
       (binding_constraints (address_concretization (preconstrainer (heap w l)))) w).
Proof.
  unfold add_concretized_constraints. unfold bind at 1. simpl.
  generalize (address_concretization (preconstrainer (heap w l))) as events.
  intros events. revert w.
  induction events as [|ev rest IH]; intros w.
  - reflexivity.
  - cbn [for_each]. unfold bind at 1.
    rewrite constrain_concretized_spec.
    rewrite IH. unfold add_all, binding_constraints. cbn [flat_map].
    rewrite fold_left_app. reflexivity.
Qed.

#[global] Instance calls_extend_preorder : PreOrder calls_extend.
Proof.
  split.
  - intros w. exists []. rewrite app_nil_r. reflexivity.
  - intros w1 w2 w3 [cs1 H1] [cs2 H2]. exists (cs1 ++ cs2).
    rewrite H2, H1, app_assoc. reflexivity.
Qed.

Lemma same_calls_extend (w w' : World) : same calls w w' -> calls_extend w w'.
Proof. intros H. exists []. rewrite app_nil_r. exact H. Qed.

Ltac calls_extend_leaf :=
  match goal with
  | |- preserves calls_extend (record_call ?c) =>
      intros ?; exists [c]; reflexivity
  | |- preserves calls_extend _ =>
      intros ?; exists []; rewrite app_nil_r; reflexivity
  | |- forall h : Heap, preserves calls_extend _ =>
      intros ? ?; exists []; rewrite app_nil_r; reflexivity
  end.

Lemma concretize_same_calls (l : loc) (ev : Expr * option (list Z)) :
  preserves (same calls) (concretize l ev).
Proof. unfold concretize. preserves_auto; apply fire_same_calls. Qed.

(** A step of a state is one call into the engine. *)
Lemma state_step_calls (E : Engine) (l : loc) (n : option nat) (w : World) :
  calls (snd (state_step E l n w)) = calls w ++ [CallStateStep l n].
Proof.
  unfold state_step. unfold bind at 1. simpl. unfold bind at 1. simpl.
  unfold bind at 1.
  match goal with
  | |- context [for_each ?evs ?body ?w2] =>
      pose proof (preserves_for_each (same calls) evs body
                    (concretize_same_calls l) w2) as Hloop;
      destruct (for_each evs body w2) as [[[]|e] w3]
  end; simpl in *.
  - unfold bind. simpl.
    destruct (E_successors E (heap w3) l n) as [[h' flat] unc]. simpl. exact Hloop.
  - exact Hloop.
Qed.

Lemma state_step_calls_extend (E : Engine) (l : loc) (n : option nat) :
  preserves calls_extend (state_step E l n).
Proof. intros w. exists [CallStateStep l n]. apply state_step_calls. Qed.

Lemma windup_insts_total (crash_addr : option Z) (inst_addrs : list Z) :
  exists insts, windup_insts crash_addr inst_addrs = Ok insts.
Proof.
  unfold windup_insts. destruct inst_addrs as [|x rest]; [eexists; reflexivity|].
  change (Nat.eqb (length (x :: rest)) 0) with false. cbv iota.
  destruct crash_addr as [a|]; [|eexists; reflexivity].
  destruct (py_in (Some a) (x :: rest)) eqn:Hin; [|eexists; reflexivity].
  apply py_in_In in Hin. apply In_nth_error in Hin. destruct Hin as [i Hi].
  assert (Hfirst : exists k, index_from a (x :: rest) 0 = Ok k).
  { clear -Hi. generalize 0%nat as k0. revert i Hi.
    induction (x :: rest) as [|y ys IH]; intros i Hi k0.
    - destruct i; discriminate.
    - simpl. destruct (Z.eqb y a) eqn:Heq; [eexists; reflexivity|].
      destruct i as [|i]; simpl in Hi.
      + injection Hi as ->. rewrite Z.eqb_refl in Heq. discriminate.
      + apply (IH i Hi). }
  destruct Hfirst as [k Hk]. unfold py_list_index. rewrite Hk. simpl.
  eexists. reflexivity.
Qed.

Lemma windup_finish_calls_extend (E : Engine) (state : loc) (bp1 bp2 : BP) :
  preserves calls_extend (windup_finish E state bp1 bp2).
Proof.
  unfold windup_finish, remove_breakpoint.
  preserves_auto; first [apply state_step_calls_extend | calls_extend_leaf].
Qed.

(** The partial step is the first call of what follows the loop. *)
Lemma windup_resume_calls (E : Engine) (state : loc) (bp1 bp2 : BP) (w : World) :
  exists insts,
    windup_insts (_crash_addr (self w)) (E_instruction_addrs E (heap w state)) = Ok insts
    /\ exists rest,
         calls (snd (windup_resume E state bp1 bp2 w))
         = calls w ++ CallStateStep state (Some insts) :: rest.
Proof.
  destruct (windup_insts_total (_crash_addr (self w))
              (E_instruction_addrs E (heap w state))) as [insts Hinsts].
  exists insts. split; [exact Hinsts|].
  unfold windup_resume. unfold bind at 1. simpl. unfold bind at 1. simpl.
  unfold bind at 1. simpl. rewrite Hinsts. simpl. unfold bind at 1.
  pose proof (state_step_calls E state (Some insts) w) as Hstep.
  destruct (state_step E state (Some insts) w) as [[[succs unc]|e] w1]; simpl in *.
  - match goal with
    | |- exists rest, calls (snd (?c w1)) = _ =>
        assert (Hrest : preserves calls_extend c)
    end.
    { unfold adopt_successor.
      preserves_auto;
        first [apply windup_finish_calls_extend | calls_extend_leaf]. }
    destruct (Hrest w1) as [cs Hcs]. exists cs.
    rewrite Hcs, Hstep, <- app_assoc. reflexivity.
  - exists []. exact Hstep.
Qed.

Lemma windup_prepare_calls (E : Engine) (l : loc) (w : World) :
  calls (snd (windup_prepare E l w)) = calls w ++ [CallStateStep l None].
Proof.
  unfold windup_prepare, inspect_b, bind. simpl.
  match goal with
  | |- context [state_step E l None ?W] =>
      pose proof (state_step_calls E l None W) as Hstep;
      destruct (state_step E l None W) as [[succs|e] w1]
  end; simpl in *; exact Hstep.
Qed.

(** C7. In windup, once the full block step has returned, the loop of
    lines 107-110 adds to the state, for every recorded concretization
    event with a non-empty candidate list, the equality of the event's
    address expression with its first candidate, in the order of the
    events; these additions come after the full step and before the step
    over the remaining instructions of the block. *)
Theorem concretized_constraints_in_order (E : Engine) (w : World) (l : loc)
    (bp1 bp2 : BP) (w1 : World) :
  last_state (self w) = Some l ->
  windup_prepare E l (snd (record_call CallWindup w)) = (Ok (bp1, bp2), w1) ->
  let added :=
    binding_constraints (address_concretization (preconstrainer (heap w1 l))) in
  let w2 := add_all l added w1 in
  calls w1 = calls w ++ [CallWindup; CallStateStep l None]
  /\ add_concretized_constraints l w1 = (Ok tt, w2)
  /\ constraints (heap w2 l) = constraints (heap w1 l) ++ added
  /\ calls w2 = calls w1 ++ map (CallAddConstraints l) added
  /\ _crash_windup E w = windup_resume E l bp1 bp2 w2
  /\ exists insts rest,
       calls (snd (_crash_windup E w))
       = calls w2 ++ CallStateStep l (Some insts) :: rest.
Proof.
  intros Hlast Hprep added w2.
  destruct (add_all_spec l added w1) as (Hcons & Hcalls & _).
  assert (Hwind : _crash_windup E w = windup_resume E l bp1 bp2 w2).
  { unfold _crash_windup. unfold bind at 1. simpl. unfold bind at 1. simpl.
    rewrite Hlast. unfold bind at 1. simpl. unfold bind at 1.
    unfold record_call in Hprep. simpl in Hprep. rewrite Hprep.
    unfold bind at 1. rewrite add_concretized_constraints_spec. reflexivity. }
  split; [|split; [|split; [|split; [|split]]]].
  - pose proof (windup_prepare_calls E l (snd (record_call CallWindup w))) as H.
    rewrite Hprep in H. simpl in H. rewrite H, <- app_assoc. reflexivity.
  - apply add_concretized_constraints_spec.
  - exact Hcons.
  - exact Hcalls.
  - exact Hwind.
  - rewrite Hwind.
    destruct (windup_resume_calls E l bp1 bp2 w2) as (insts & _ & rest & Hrest).
    exists insts, rest. exact Hrest.
Qed.

Lemma concretized_constraints_in_order_witness :
  let w0 := snd (record_call CallWindup Toy.recorded_world) in
  let w1 := snd (windup_prepare Toy.E0 3%nat w0) in
  let added :=
    binding_constraints (address_concretization (preconstrainer (heap w1 3%nat))) in
  added = [EqConst Toy.expr_stdin 4096%Z; EqConst Toy.expr_short 8192%Z]
  /\ constraints (heap (add_all 3%nat added w1) 3%nat)
     = constraints (heap w1 3%nat) ++ added
  /\ calls (add_all 3%nat added w1)
     = calls w1 ++ map (CallAddConstraints 3%nat) added.
Proof.
  intros w0 w1 added.
  assert (Hprep :
    windup_prepare Toy.E0 3%nat (snd (record_call CallWindup Toy.recorded_world))
    = (Ok (mkBP 2 ev_address_concretization BP_BEFORE act_dont_add_constraints,
           mkBP 3 ev_address_concretization BP_AFTER act_grab_concretization_results),
       w1)).
  { vm_compute. reflexivity. }
  destruct (concretized_constraints_in_order Toy.E0 Toy.recorded_world 3%nat _ _ w1
              eq_refl Hprep) as (_ & _ & Hcons & Hcalls & _).
  split; [vm_compute; reflexivity|]. split; [exact Hcons | exact Hcalls].
Defined.

(** ** Windup: the interceptor's hooks are scoped *)

Lemma update_state_same_bps (l l' : loc) (f : SimState -> outcome SimState) :
  (forall s s', f s = Ok s' -> breakpoints (inspect s') = breakpoints (inspect s)) ->
  preserves (same (fun w => bps w l)) (update_state l' f).
Proof.
  intros Hf w. unfold same, update_state.
  destruct (f (heap w l')) as [s'|e] eqn:Hfs; simpl; [|reflexivity].
  unfold bps, heap_set. simpl.
  destruct (Nat.eqb_spec l l') as [->|Hne]; [|reflexivity].
  apply (Hf _ _ Hfs).
Qed.

Lemma _dont_add_constraints_breakpoints (s s' : SimState) :
  _dont_add_constraints s = Ok s' ->
  breakpoints (inspect s') = breakpoints (inspect s).
Proof.
  unfold _dont_add_constraints. destruct (_add_constraints s); simpl; [|discriminate].
  intros H. injection H as <-. reflexivity.
Qed.

Lemma _grab_concretization_results_breakpoints (s s' : SimState) :
  _grab_concretization_results s = Ok s' ->
  breakpoints (inspect s') = breakpoints (inspect s).
Proof. intros H. apply _grab_concretization_results_no_record in H. now subst. Qed.

Ltac same_bps_leaf :=
  match goal with
  | |- preserves (same (fun w => bps w _)) (update_state _ _dont_add_constraints) =>
      apply update_state_same_bps; exact _dont_add_constraints_breakpoints
  | |- preserves (same (fun w => bps w _)) (update_state _ _grab_concretization_results) =>
      apply update_state_same_bps; exact _grab_concretization_results_breakpoints
  | |- preserves (same (fun w => bps w _)) (modify_state _ _) =>
      apply update_state_same_bps;
      let s := fresh "s" in let s' := fresh "s" in let H := fresh "H" in
      intros s s' H; injection H as <-; reflexivity
  end.

Ltac same_bps_auto := repeat first [ same_bps_leaf | untouched | preserves_step ].

Lemma fire_same_bps (l l0 : loc) (ev : EventType) (wh : When) :
  preserves (same (fun w => bps w l)) (fire l0 ev wh).
Proof. unfold fire, run_action, _check_stack. same_bps_auto. Qed.

Lemma concretize_same_bps (l l0 : loc) (ev : Expr * option (list Z)) :
  preserves (same (fun w => bps w l)) (concretize l0 ev).
Proof. unfold concretize. same_bps_auto; apply fire_same_bps. Qed.

Lemma state_step_bps (E : Engine) (l : loc) (n : option nat) (w w' : World)
    (flat unc : list loc) :
  successors_inherit E ->
  state_step E l n w = (Ok (flat, unc), w') ->
  bps w' l = bps w l
  /\ forall s, In s (flat ++ unc) -> bps w' s = bps w l.
Proof.
  intros Hinherit. unfold state_step. unfold bind at 1. simpl.
  unfold bind at 1. simpl. unfold bind at 1.
  match goal with
  | |- context [for_each ?evs ?body ?w2] =>
      pose proof (preserves_for_each (same (fun w => bps w l)) evs body
                    (concretize_same_bps l l) w2) as Hloop;
      destruct (for_each evs body w2) as [[[]|e] w3]
  end; simpl in *; [|discriminate].
  unfold bind. simpl.
  destruct (E_successors E (heap w3) l n) as [[h' flat'] unc'] eqn:Hsucc. simpl.
  intros H. injection H as <- <- <-.
  destruct (Hinherit _ _ _ _ _ _ Hsucc) as [Hl Hs].
  unfold same, bps in *. simpl in *. split.
  - rewrite Hl. exact Hloop.
  - intros s Hin. rewrite (Hs s Hin). exact Hloop.
Qed.

Lemma fresh_handle_above (registered : list BP) (bp : BP) :
  In bp registered -> (bp_handle bp < fresh_handle registered)%nat.
Proof.
  unfold fresh_handle. induction registered as [|b rest IH]; simpl.
  - intros [].
  - intros [->|Hin]; [lia | specialize (IH Hin); lia].
Qed.

Lemma remove_handle_skip (ev : EventType) (h : nat) (registered tail : list BP) :
  (forall bp, In bp registered -> bp_handle bp <> h) ->
  remove_handle ev h (registered ++ tail) = registered ++ remove_handle ev h tail.
Proof.
  induction registered as [|b rest IH]; intros Hne; simpl.
  - reflexivity.
  - assert (Hb : Nat.eqb (bp_handle b) h = false).
    { apply Nat.eqb_neq. apply Hne. left. reflexivity. }
    rewrite Hb, andb_false_r. f_equal. apply IH.
    intros bp Hin. apply Hne. right. exact Hin.
Qed.

(** Removing the two hooks windup has appended gives back the breakpoints
    that were registered before. *)
Lemma remove_installed_hooks (registered : list BP) (a1 a2 : Action) (w1 w2 : When) :
  let ev := ev_address_concretization in
  let bp1 := mkBP (fresh_handle registered) ev w1 a1 in
  let bp2 := mkBP (fresh_handle (registered ++ [bp1])) ev w2 a2 in
  remove_handle ev (bp_handle bp2)
    (remove_handle ev (bp_handle bp1) (registered ++ [bp1; bp2]))
  = registered.
Proof.
  intros ev bp1 bp2.
  rewrite remove_handle_skip.
  2:{ intros bp Hin. apply fresh_handle_above in Hin. simpl. lia. }
  simpl. rewrite Nat.eqb_refl. simpl.
  rewrite remove_handle_skip.
  2:{ intros bp Hin.
      assert (Hin' : In bp (registered ++ [bp1])) by (apply in_or_app; left; exact Hin).
      apply fresh_handle_above in Hin'. simpl. lia. }
  simpl. rewrite Nat.eqb_refl. simpl. apply app_nil_r.
Qed.

Lemma windup_prepare_bps (E : Engine) (l : loc) (w w1 : World) (bp1 bp2 : BP) :
  successors_inherit E ->
  windup_prepare E l w = (Ok (bp1, bp2), w1) ->
  bp1 = mkBP (fresh_handle (bps w l)) ev_address_concretization BP_BEFORE
          act_dont_add_constraints
  /\ bp2 = mkBP (fresh_handle (bps w l ++ [bp1])) ev_address_concretization BP_AFTER
             act_grab_concretization_results
  /\ bps w1 l = bps w l ++ [bp1; bp2].
Proof.
  intros Hinherit. unfold windup_prepare, inspect_b, bind. simpl.
  match goal with
  | |- context [state_step E l None ?W] =>
      destruct (state_step E l None W) as [[[flat unc]|e] w2] eqn:Hstep
  end; simpl; [|discriminate].
  intros H. injection H as <- <- <-.
  apply state_step_bps in Hstep; [|exact Hinherit].
  destruct Hstep as [Hl _].
  unfold bps, heap_set in *. simpl in *. rewrite !Nat.eqb_refl in *. simpl in *.
  rewrite Hl. rewrite <- app_assoc. auto.
Qed.

Lemma adopt_successor_spec (E : Engine) (l st : loc) (succs : list loc) (w w' : World) :
  adopt_successor E l succs w = (Ok st, w') ->
  heap w' = heap w /\ (st = l \/ In st succs).
Proof.
  unfold adopt_successor.
  destruct (Nat.ltb 0 (length succs)).
  - unfold bind. simpl.
    match goal with
    | |- context [py_index ?xs 0] => destruct (py_index xs 0) as [s|e] eqn:Hidx
    end; simpl; [|discriminate].
    intros H. injection H as <- <-. simpl. split; [reflexivity|]. right.
    unfold py_index in Hidx.
    match type of Hidx with
    | context [nth_error ?xs 0] => destruct (nth_error xs 0) as [s'|] eqn:Hnth
    end; [|discriminate].
    injection Hidx as ->. apply nth_error_In in Hnth.
    destruct (Nat.ltb 1 (length succs)); [|exact Hnth].
    apply List.filter_In in Hnth. apply Hnth.
  - intros H. injection H as <- <-. auto.
Qed.

Lemma py_index_In {A} (xs : list A) (i : nat) (x : A) :
  py_index xs i = Ok x -> In x xs.
Proof.
  unfold py_index. destruct (nth_error xs i) as [y|] eqn:Hnth; [|discriminate].
  intros H. injection H as ->. eapply nth_error_In. eassumption.
Qed.

Lemma windup_finish_bps (E : Engine) (st s : loc) (w w' : World)
    (registered : list BP) (a1 a2 : Action) (wh1 wh2 : When) :
  successors_inherit E ->
  let bp1 := mkBP (fresh_handle registered) ev_address_concretization wh1 a1 in
  let bp2 := mkBP (fresh_handle (registered ++ [bp1])) ev_address_concretization wh2 a2 in
  bps w st = registered ++ [bp1; bp2] ->
  windup_finish E st bp1 bp2 w = (Ok s, w') ->
  bps w' s = registered.
Proof.
  intros Hinherit bp1 bp2 Hreg.
  unfold windup_finish, remove_breakpoint, bind. simpl.
  match goal with
  | |- context [state_step E st None ?W] =>
      destruct (state_step E st None W) as [[[flat unc]|e] w2] eqn:Hstep
  end; simpl; [|discriminate].
  intros H.
  destruct (py_index (flat ++ unc) 0) as [s'|e] eqn:Hidx; [|discriminate].
  injection H as <- <-.
  apply py_index_In in Hidx.
  apply state_step_bps in Hstep; [|exact Hinherit].
  destruct Hstep as [_ Hsucc]. rewrite (Hsucc s' Hidx).
  unfold bps, heap_set in *. simpl. rewrite !Nat.eqb_refl. simpl.
  rewrite Hreg. apply (remove_installed_hooks registered a1 a2 wh1 wh2).
Qed.

(** What follows the loop ends in lines 138-145, run on a state that
    carries the breakpoints of the tracked state. *)
Lemma windup_resume_inv (E : Engine) (l s : loc) (w w' : World) (bp1 bp2 : BP) :
  successors_inherit E ->
  preconstrainer_keeps_breakpoints E ->
  windup_resume E l bp1 bp2 w = (Ok s, w') ->
  exists st w6,
    windup_finish E st bp1 bp2 w6 = (Ok s, w')
    /\ bps w6 st = bps w l.
Proof.
  intros Hinherit Hpre.
  unfold windup_resume. unfold bind at 1. simpl. unfold bind at 1. simpl.
  unfold bind at 1. simpl.
  destruct (windup_insts _ _) as [insts|e]; simpl; [|discriminate].
  unfold bind at 1.
  destruct (state_step E l (Some insts) w) as [[[succs unc]|e] w3] eqn:Hstep;
    simpl; [|discriminate].
  unfold bind at 1.
  destruct (adopt_successor E l succs w3) as [[st|e] w4] eqn:Hadopt;
    simpl; [|discriminate].
  unfold bind at 1. simpl. unfold bind at 1. simpl.
  apply state_step_bps in Hstep; [|exact Hinherit].
  destruct Hstep as [Hl Hsuccs].
  apply adopt_successor_spec in Hadopt. destruct Hadopt as [Hheap Hst].
  intros Hfinish. eexists st, _. split; [exact Hfinish|].
  unfold bps, heap_set in *. simpl. rewrite !Nat.eqb_refl.
  rewrite (proj2 (Hpre _)), (proj1 (Hpre _)). rewrite Hheap.
  destruct Hst as [->|Hin].
  - exact Hl.
  - apply (Hsuccs st). apply in_or_app. left. exact Hin.
Qed.

(** Lines 138-145 are three calls: the two removals, then the final step. *)
Lemma windup_finish_calls (E : Engine) (st : loc) (bp1 bp2 : BP) (w : World) :
  calls (snd (windup_finish E st bp1 bp2 w))
  = calls w ++ [CallRemoveBreakpoint st (bp_handle bp1);
                CallRemoveBreakpoint st (bp_handle bp2);
                CallStateStep st None].
Proof.
  unfold windup_finish, remove_breakpoint, bind. simpl.
  match goal with
  | |- context [state_step E st None ?W] =>
      pose proof (state_step_calls E st None W) as Hstep;
      destruct (state_step E st None W) as [[[flat unc]|e] w2]
  end; simpl in *.
  - destruct (py_index (flat ++ unc) 0); simpl;
      rewrite Hstep, <- !app_assoc; reflexivity.
  - rewrite Hstep, <- !app_assoc. reflexivity.
Qed.

Lemma add_all_bps (l : loc) (cs : list Constraint) :
  forall w, bps (add_all l cs w) l = bps w l.
Proof.
  induction cs as [|c rest IH]; intros w; [reflexivity|].
  change (add_all l (c :: rest) w)
    with (add_all l rest (snd (add_constraints l c w))).
  rewrite IH. unfold bps, add_constraints, bind, record_call, modify_state,
    update_state, put_heap, heap_set. simpl. rewrite Nat.eqb_refl. reflexivity.
Qed.

(** C8 (as the code has it). Whenever windup returns a state, whichever
    way its partial step went, the two hooks it installed at its start have been removed before
    the final step, the last call windup makes: the returned state carries
    exactly the breakpoints the tracked state had when windup was entered,
    so neither hook is left on it and no address-concretization breakpoint
    is registered on it unless one was there before. *)
Theorem windup_hooks_removed (E : Engine) (w w' : World) (l s : loc) :
  successors_inherit E ->
  preconstrainer_keeps_breakpoints E ->
  last_state (self w) = Some l ->
  _crash_windup E w = (Ok s, w') ->
  bps w' s = bps w l
  /\ ((forall bp, In bp (bps w l) -> bp_event bp <> ev_address_concretization) ->
      forall bp, In bp (bps w' s) -> bp_event bp <> ev_address_concretization)
  /\ exists st before h1 h2,
       h1 = fresh_handle (bps w l)
       /\ h1 <> h2
       /\ calls w' = before ++ [CallRemoveBreakpoint st h1;
                                CallRemoveBreakpoint st h2;
                                CallStateStep st None].
Proof.
  intros Hinherit Hpre Hlast Hwind.
  revert Hwind. unfold _crash_windup. unfold bind at 1. simpl.
  unfold bind at 1. simpl. rewrite Hlast. unfold bind at 1. simpl.
  unfold bind at 1.
  match goal with
  | |- context [windup_prepare E l ?W] =>
      destruct (windup_prepare E l W) as [[[bp1 bp2]|e] w1] eqn:Hprep
  end; simpl; [|discriminate].
  unfold bind at 1. rewrite add_concretized_constraints_spec.
  apply windup_prepare_bps in Hprep; [|exact Hinherit].
  destruct Hprep as (Hbp1 & Hbp2 & Hreg).
  change (bps {| heap := heap w; simgr := simgr w; self := self w;
                 calls := calls w ++ [CallWindup] |} l) with (bps w l) in *.
  intros Hresume.
  apply windup_resume_inv in Hresume; [|exact Hinherit|exact Hpre].
  destruct Hresume as (st & w6 & Hfinish & Hst).
  rewrite add_all_bps, Hreg in Hst.
  assert (Hbps : bps w' s = bps w l).
  { subst bp1 bp2.
    exact (windup_finish_bps E st s w6 w' (bps w l) _ _ _ _ Hinherit Hst Hfinish). }
  split; [exact Hbps|]. split.
  - intros Hnone bp Hin. rewrite Hbps in Hin. exact (Hnone bp Hin).
  - pose proof (windup_finish_calls E st bp1 bp2 w6) as Hcalls.
    rewrite Hfinish in Hcalls. simpl in Hcalls.
    exists st, (calls w6), (bp_handle bp1), (bp_handle bp2).
    split; [subst bp1; reflexivity|]. split; [|exact Hcalls].
    assert (Hlt : (bp_handle bp1 < bp_handle bp2)%nat).
    { rewrite Hbp2. simpl. apply fresh_handle_above.
      apply in_or_app. right. left. reflexivity. }
    lia.
Qed.

Lemma toy_successors_inherit (events : list (Expr * option (list Z))) :
  successors_inherit (Toy.engine events).
Proof.
  intros h l n h' flat unc H. simpl in H. unfold Toy.toy_successors in H.
  injection H as <- <- <-. unfold heap_set. split.
  - destruct (Nat.eqb_spec l (S l)) as [Heq|_]; [lia | reflexivity].
  - intros s [<-|[]]. rewrite Nat.eqb_refl. reflexivity.
Qed.

Lemma toy_preconstrainer_keeps_breakpoints (events : list (Expr * option (list Z))) :
  preconstrainer_keeps_breakpoints (Toy.engine events).
Proof. intros s. split; reflexivity. Qed.

Lemma windup_hooks_removed_witness :
  bps (snd (_crash_windup Toy.E0 Toy.w_segfault)) 5%nat = bps Toy.w_segfault 3%nat
  /\ forall bp, In bp (bps (snd (_crash_windup Toy.E0 Toy.w_segfault)) 5%nat) ->
                bp_event bp <> ev_address_concretization.
Proof.
  assert (Hrun : _crash_windup Toy.E0 Toy.w_segfault
                 = (Ok 5%nat, snd (_crash_windup Toy.E0 Toy.w_segfault))).
  { vm_compute. reflexivity. }
  destruct (windup_hooks_removed Toy.E0 Toy.w_segfault _ 3%nat 5%nat
              (toy_successors_inherit []) (toy_preconstrainer_keeps_breakpoints [])
              eq_refl Hrun) as (Hsame & Hnone & _).
  split; [exact Hsame|].
  apply Hnone. intros bp Hin. vm_compute in Hin.
  destruct Hin as [<-|[]]. discriminate.
Defined.

(** C8 as stated fails: windup does not remove its hooks whatever the
    outcome. On a tracked state with a registered constrained address the
    pre-resolution hook raises inside the full step of line 104, windup
    raises with it, lines 139-140 are not reached, and the hook windup
    installed at line 92 is still registered on the tracked state. *)
Lemma hooks_left_on_raise_counterexample :
  ~ (forall (E : Engine) (w w' : World) (l : loc) (r : outcome loc),
       successors_inherit E ->
       preconstrainer_keeps_breakpoints E ->
       last_state (self w) = Some l ->
       _crash_windup E w = (r, w') ->
       forall bp, In bp (bps w' l) ->
                  bp_event bp = ev_address_concretization ->
                  In bp (bps w l)).
Proof.
  intros H.
  pose (E := Toy.engine [(Toy.expr_stdin, Some [4096%Z])]).
  assert (Hrun : _crash_windup E Toy.preconstrained_world
                 = (Raise (NameError "self"),
                    snd (_crash_windup E Toy.preconstrained_world))).
  { vm_compute. reflexivity. }
  specialize (H E Toy.preconstrained_world _ 3%nat _
                (toy_successors_inherit _) (toy_preconstrainer_keeps_breakpoints _)
                eq_refl Hrun
                (mkBP 2 ev_address_concretization BP_BEFORE act_dont_add_constraints)).
  assert (Hin : In (mkBP 2 ev_address_concretization BP_BEFORE act_dont_add_constraints)
                  (bps (snd (_crash_windup E Toy.preconstrained_world)) 3%nat)).
  { vm_compute. right. left. reflexivity. }
  specialize (H Hin eq_refl). vm_compute in H.
  destruct H as [H|[]]. discriminate.
Qed.

(** * Further properties of the code *)

(** ** Index extraction, [_to_indices] *)

Lemma filter_permutation {A} (f : A -> bool) (xs ys : list A) :
  Permutation xs ys -> Permutation (List.filter f xs) (List.filter f ys).
Proof.
  induction 1 as [|x xs ys _ IH|x y xs|xs ys zs _ IH1 _ IH2]; simpl.
  - constructor.
  - destruct (f x); [constructor|]; exact IH.
  - destruct (f x), (f y); try reflexivity. constructor.
  - etransitivity; eassumption.
Qed.

Lemma map_outcome_permutation {A B} (f : A -> outcome B) (xs xs' : list A) :
  Permutation xs xs' ->
  forall ys, map_outcome f xs = Ok ys ->
             exists ys', map_outcome f xs' = Ok ys' /\ Permutation ys ys'.
Proof.
  induction 1 as [|x xs xs' _ IH|x y xs|xs xs' xs'' _ IH1 _ IH2]; intros ys Hys.
  - exists ys. split; [exact Hys | reflexivity].
  - simpl in *. destruct (f x) as [b|e]; simpl in *; [|discriminate].
    destruct (map_outcome f xs) as [bs|e]; simpl in *; [|discriminate].
    injection Hys as <-. destruct (IH bs eq_refl) as (bs' & -> & Hperm).
    simpl. exists (b :: bs'). split; [reflexivity | constructor; exact Hperm].
  - simpl in *. destruct (f y) as [b|e]; simpl in *; [|discriminate].
    destruct (f x) as [a|e]; simpl in *; [|discriminate].
    destruct (map_outcome f xs) as [bs|e]; simpl in *; [|discriminate].
    injection Hys as <-. exists (a :: b :: bs). split; [reflexivity | constructor].
  - destruct (IH1 ys Hys) as (ys' & Hys' & Hp1).
    destruct (IH2 ys' Hys') as (ys'' & Hys'' & Hp2).
    exists ys''. split; [exact Hys'' | etransitivity; eassumption].
Qed.

Lemma map_outcome_raises {A B} (f : A -> outcome B) (xs : list A) (x : A) (e : exn) :
  In x xs -> f x = Raise e -> exists e', map_outcome f xs = Raise e'.
Proof.
  induction xs as [|y rest IH]; intros Hin Hx; [destruct Hin|].
  simpl. destruct Hin as [->|Hin].
  - rewrite Hx. simpl. eexists. reflexivity.
  - destruct (f y) as [b|e0]; simpl; [|eexists; reflexivity].
    destruct (IH Hin Hx) as [e' ->]. simpl. eexists. reflexivity.
Qed.

Lemma insert_sorted_comm (x y : Z) (l : list Z) :
  PyStr.insert_sorted x (PyStr.insert_sorted y l)
  = PyStr.insert_sorted y (PyStr.insert_sorted x l).
Proof.
  induction l as [|a l IH]; simpl.
  - destruct (Z.leb_spec x y), (Z.leb_spec y x); try reflexivity; try lia.
    assert (x = y) by lia. subst. reflexivity.
  - destruct (Z.leb_spec y a), (Z.leb_spec x a); simpl.
    + destruct (Z.leb_spec x y), (Z.leb_spec y x); simpl;
        repeat match goal with
               | |- context [Z.leb ?p ?q] => destruct (Z.leb_spec p q); try lia
               end; try reflexivity.
      assert (x = y) by lia. subst. reflexivity.
    + repeat match goal with
             | |- context [Z.leb ?p ?q] => destruct (Z.leb_spec p q); try lia
             end; reflexivity.
    + repeat match goal with
             | |- context [Z.leb ?p ?q] => destruct (Z.leb_spec p q); try lia
             end; reflexivity.
    + repeat match goal with
             | |- context [Z.leb ?p ?q] => destruct (Z.leb_spec p q); try lia
             end. rewrite IH. reflexivity.
Qed.

Lemma sorted_permutation (xs ys : list Z) :
  Permutation xs ys -> PyStr.sorted xs = PyStr.sorted ys.
Proof.
  induction 1 as [|x xs ys _ IH|x y xs|xs ys zs _ IH1 _ IH2]; simpl.
  - reflexivity.
  - rewrite IH. reflexivity.
  - apply insert_sorted_comm.
  - congruence.
Qed.

Lemma insert_sorted_Sorted (x : Z) (l : list Z) :
  Sorted Z.le l -> Sorted Z.le (PyStr.insert_sorted x l).
Proof.
  induction 1 as [|a l Hs IH Hhd]; simpl.
  - repeat constructor.
  - destruct (Z.leb_spec x a).
    + constructor; [constructor; assumption | constructor; assumption].
    + constructor; [exact IH|].
      destruct l as [|b l]; simpl.
      * constructor. lia.
      * inversion Hhd; subst. destruct (Z.leb_spec x b); constructor; lia.
Qed.

Lemma sorted_Sorted (xs : list Z) : Sorted Z.le (PyStr.sorted xs).
Proof.
  induction xs as [|x xs IH]; simpl; [constructor | apply insert_sorted_Sorted, IH].
Qed.

(** X1. [_to_indices] looks only at the variables whose name starts with
    [file_/dev/stdin]: a variable of any other name, wherever it stands,
    changes nothing, neither the indices nor an exception; without any
    stdin variable the result is the empty list. *)
Theorem to_indices_ignores_other_variables (before after : list string) (v : string) :
  PyStr.startswith v "file_/dev/stdin" = false ->
  _to_indices (before ++ v :: after) = _to_indices (before ++ after)
  /\ (_to_indices [v] = Ok []).
Proof.
  intros Hv. unfold _to_indices. simpl.
  rewrite !List.filter_app. simpl. rewrite Hv. split; reflexivity.
Qed.

Lemma to_indices_ignores_other_variables_witness :
  _to_indices (["file_/dev/stdin_0_1f_7_8"] ++ "reg_rax_3_64" :: ["file_/dev/stdin_0_a_2_8"])
  = _to_indices (["file_/dev/stdin_0_1f_7_8"] ++ ["file_/dev/stdin_0_a_2_8"])
  /\ _to_indices ["reg_rax_3_64"] = Ok [].
Proof.
  apply (to_indices_ignores_other_variables
           ["file_/dev/stdin_0_1f_7_8"] ["file_/dev/stdin_0_a_2_8"] "reg_rax_3_64").
  reflexivity.
Defined.

(** X2. The indices [_to_indices] returns are in ascending order and do
    not depend on the order in which the variables are enumerated (they
    come from a set): any rearrangement of the variables gives the same
    list, so the comparison of line 179 is one of multisets of indices. *)
Theorem to_indices_order_independent (vars vars' : list string) (indices : list Z) :
  Permutation vars vars' ->
  _to_indices vars = Ok indices ->
  _to_indices vars' = Ok indices /\ Sorted Z.le indices.
Proof.
  intros Hperm. unfold _to_indices.
  destruct (map_outcome _ (List.filter _ vars)) as [parsed|e] eqn:Hparsed;
    simpl; [|discriminate].
  intros H. injection H as <-.
  destruct (map_outcome_permutation _ _ _
              (filter_permutation (fun v => PyStr.startswith v "file_/dev/stdin")
                 _ _ Hperm) parsed Hparsed) as (parsed' & Hparsed' & Hp).
  rewrite Hparsed'. simpl. split.
  - f_equal. symmetry. apply sorted_permutation. exact Hp.
  - apply sorted_Sorted.
Qed.

Lemma to_indices_order_independent_witness :
  _to_indices ["file_/dev/stdin_0_a_2_8"; "reg_rax_3_64"; "file_/dev/stdin_0_1f_7_8"]
  = Ok [10; 31]%Z
  /\ Sorted Z.le [10; 31]%Z.
Proof.
  apply (to_indices_order_independent
           ["file_/dev/stdin_0_1f_7_8"; "reg_rax_3_64"; "file_/dev/stdin_0_a_2_8"]).
  - apply perm_trans
      with (l' := ["reg_rax_3_64"; "file_/dev/stdin_0_1f_7_8"; "file_/dev/stdin_0_a_2_8"]).
    + apply perm_swap.
    + apply perm_trans
        with (l' := ["reg_rax_3_64"; "file_/dev/stdin_0_a_2_8"; "file_/dev/stdin_0_1f_7_8"]).
      * apply perm_skip. apply perm_swap.
      * apply perm_swap.
  - reflexivity.
Defined.

(** X3. One malformed stdin variable is enough for [_to_indices] to
    raise: a name with the prefix that has fewer than four pieces between
    underscores (line 186 indexes the fourth) or whose fourth piece is not
    a hexadecimal number makes the call raise whatever the other variables
    are. *)
Theorem to_indices_malformed_raises (vars : list string) (v : string) :
  In v vars ->
  PyStr.startswith v "file_/dev/stdin" = true ->
  (length (PyStr.split "_" v) <= 3)%nat
  \/ (exists piece, nth_error (PyStr.split "_" v) 3 = Some piece
                    /\ PyStr.int16 piece = Raise ValueError) ->
  exists e, _to_indices vars = Raise e.
Proof.
  intros Hin Hprefix Hbad. unfold _to_indices.
  assert (Hraise : exists e0,
             obind (py_index (PyStr.split "_" v) 3) PyStr.int16 = Raise e0).
  { unfold py_index. destruct Hbad as [Hshort|(piece & Hnth & Hint)].
    - apply nth_error_None in Hshort. rewrite Hshort. eexists. reflexivity.
    - rewrite Hnth. simpl. rewrite Hint. eexists. reflexivity. }
  destruct Hraise as [e0 He0].
  assert (Hin' : In v (List.filter (fun v => PyStr.startswith v "file_/dev/stdin") vars)).
  { apply List.filter_In. split; assumption. }
  destruct (map_outcome_raises
              (fun y => obind (py_index (PyStr.split "_" y) 3) PyStr.int16)
              _ v e0 Hin' He0) as [e' ->].
  exists e'. reflexivity.
Qed.

Lemma to_indices_malformed_raises_witness :
  (exists e, _to_indices ["file_/dev/stdin_0_1f_7_8"; "file_/dev/stdin"] = Raise e)
  /\ (exists e, _to_indices ["file_/dev/stdin_0_xyz_7_8"] = Raise e).
Proof.
  split.
  - apply (to_indices_malformed_raises _ "file_/dev/stdin").
    + right. left. reflexivity.
    + reflexivity.
    + left. vm_compute. lia.
  - apply (to_indices_malformed_raises _ "file_/dev/stdin_0_xyz_7_8").
    + left. reflexivity.
    + reflexivity.
    + right. exists "xyz". split; reflexivity.
Defined.

(** ** The interceptor's hooks, whenever they return *)

(** X4. The pre-resolution hook can only suppress: whenever
    [_dont_add_constraints] returns, it has set the engine's
    add-constraints flag to false and changed nothing else; whenever
    [_grab_concretization_results] returns, the state is as it was. Both
    do return on a state without registered constrained addresses whose
    expression has well-formed variables. *)
Theorem interceptor_only_suppresses (state : SimState) :
  (forall state', _dont_add_constraints state = Ok state' ->
                  state' = set_add_constraints state false)
  /\ (forall state', _grab_concretization_results state = Ok state' ->
                     state' = state)
  /\ (_constrained_addrs (preconstrainer state) = [] ->
      forall hit,
        _to_indices (variables (address_concretization_expr (inspect state))) = Ok hit ->
        _dont_add_constraints state = Ok (set_add_constraints state false)
        /\ _grab_concretization_results state = Ok state).
Proof.
  split; [|split].
  - intros state'. unfold _dont_add_constraints.
    pose proof (_add_constraints_never_true state) as Hnever.
    destruct (_add_constraints state) as [[|]|e]; simpl; try discriminate.
    + congruence.
    + intros H. injection H as <-. reflexivity.
  - intros state'. apply _grab_concretization_results_no_record.
  - intros Hnone hit Hhit.
    assert (Hadd : _add_constraints state = Ok false).
    { unfold _add_constraints. rewrite Hhit, Hnone. reflexivity. }
    unfold _dont_add_constraints, _grab_concretization_results. rewrite Hadd.
    split; reflexivity.
Qed.

Lemma interceptor_only_suppresses_witness :
  _dont_add_constraints Toy.unmatched_event_state
    = Ok (set_add_constraints Toy.unmatched_event_state false)
  /\ _grab_concretization_results Toy.unmatched_event_state
     = Ok Toy.unmatched_event_state.
Proof.
  apply (proj2 (proj2 (interceptor_only_suppresses Toy.unmatched_event_state))
           eq_refl []).
  reflexivity.
Defined.

(** ** Windup: the partial step and its successors *)




Lemma py_index_filter_find {A} (f : A -> bool) (xs : list A) :
  py_index (List.filter f xs) 0
  = match List.find f xs with
    | Some x => Ok x
    | None => Raise IndexError
    end.
Proof.
  induction xs as [|x rest IH]; simpl; [reflexivity|].
  destruct (f x); [reflexivity | exact IH].
Qed.

(** X6. Adopting a successor of the partial step, lines 125-129: without
    successors the tracked state is kept and nothing changes; a single
    successor is adopted without its satisfiability being asked; of
    several, the first satisfiable one is adopted, and when none of them
    is satisfiable line 128 raises [IndexError] and [last_state] is not
    assigned. An adopted successor becomes [last_state]. *)
Theorem adopt_successor_selects (E : Engine) (state : loc) (succs : list loc)
    (w : World) :
  let adopted s := snd (modify_self (fun m => set_last_state m (Some s)) w) in
  (succs = [] -> adopt_successor E state succs w = (Ok state, w))
  /\ (forall s, succs = [s] -> adopt_successor E state succs w = (Ok s, adopted s))
  /\ ((2 <= length succs)%nat ->
      adopt_successor E state succs w
      = match List.find (fun s => E_satisfiable E (heap w s)) succs with
        | Some s => (Ok s, adopted s)
        | None => (Raise IndexError, w)
        end).
Proof.
  intros adopted. split; [|split].
  - intros ->. reflexivity.
  - intros s ->. reflexivity.
  - intros Hlen. unfold adopt_successor.
    destruct succs as [|s1 [|s2 rest]]; simpl in Hlen; try lia.
    change (Nat.ltb 0 (length (s1 :: s2 :: rest))) with true.
    change (Nat.ltb 1 (length (s1 :: s2 :: rest))) with true. cbv iota.
    unfold bind, get_heap, lift.
    rewrite py_index_filter_find.
    destruct (List.find _ _) as [s|]; reflexivity.
Qed.

Lemma adopt_successor_selects_witness :
  adopt_successor Toy.E0 3%nat [] Toy.w3 = (Ok 3%nat, Toy.w3)
  /\ adopt_successor Toy.E0 3%nat [4%nat] Toy.w3
     = (Ok 4%nat, snd (modify_self (fun m => set_last_state m (Some 4%nat)) Toy.w3))
  /\ adopt_successor Toy.E0 3%nat [4%nat; 5%nat] Toy.w3
     = (Ok 4%nat, snd (modify_self (fun m => set_last_state m (Some 4%nat)) Toy.w3)).
Proof.
  split; [|split].
  - apply (proj1 (adopt_successor_selects Toy.E0 3%nat [] Toy.w3)). reflexivity.
  - apply (proj1 (proj2 (adopt_successor_selects Toy.E0 3%nat [4%nat] Toy.w3))).
    reflexivity.
  - apply (proj2 (proj2 (adopt_successor_selects Toy.E0 3%nat [4%nat; 5%nat] Toy.w3))).
    simpl. lia.
Defined.

(** ** Setup and the classifier *)

(** X7. [setup] records the project and registers the classifier, as a
    new breakpoint after [state_step], on the first active state only:
    every other state, the manager, the classification and the engine are
    left alone. With no active state line 40 raises [IndexError], the
    project having been recorded already. *)
Theorem setup_registers_classifier (w : World) :
  (active (simgr w) = [] ->
   setup w
   = (Raise IndexError,
      snd (modify_self (fun m => set_project m (Some (_project (simgr w)))) w)))
  /\ (forall l rest,
        active (simgr w) = Some l :: rest ->
        exists w',
          setup w = (Ok tt, w')
          /\ bps w' l
             = bps w l ++ [mkBP (fresh_handle (bps w l)) ev_state_step BP_AFTER
                             act_check_stack]
          /\ (forall l', l' <> l -> heap w' l' = heap w l')
          /\ self w' = set_project (self w) (Some (_project (simgr w)))
          /\ simgr w' = simgr w
          /\ calls w' = calls w).
Proof.
  split.
  - intros Hactive. unfold setup, bind. simpl. rewrite Hactive. reflexivity.
  - intros l rest Hactive. unfold setup, inspect_b, bind. simpl.
    rewrite Hactive. simpl. eexists. split; [reflexivity|].
    unfold bps, heap_set. simpl. rewrite Nat.eqb_refl. simpl.
    repeat split.
    intros l' Hne. apply Nat.eqb_neq in Hne. rewrite Hne. reflexivity.
Qed.

Lemma setup_registers_classifier_witness :
  exists w',
    setup Toy.w3 = (Ok tt, w')
    /\ bps w' 3%nat
       = bps Toy.w3 3%nat ++ [mkBP (fresh_handle (bps Toy.w3 3%nat)) ev_state_step
                                BP_AFTER act_check_stack]
    /\ (forall l', l' <> 3%nat -> heap w' l' = heap Toy.w3 l')
    /\ self w' = set_project (self Toy.w3) (Some (_project (simgr Toy.w3)))
    /\ simgr w' = simgr Toy.w3
    /\ calls w' = calls Toy.w3.
Proof.
  apply (proj2 (setup_registers_classifier Toy.w3) 3%nat []).
  vm_compute. reflexivity.
Defined.

Lemma _check_stack_returns (l : loc) (w : World) :
  _check_stack l w = (Ok tt, snd (_check_stack l w)).
Proof.
  unfold _check_stack, bind. simpl. destruct (ip_symbolic (heap w l)); reflexivity.
Qed.

Lemma _check_stack_idempotent (l : loc) (w : World) :
  snd (_check_stack l (snd (_check_stack l w))) = snd (_check_stack l w).
Proof.
  unfold _check_stack, bind. simpl.
  destruct (ip_symbolic (heap w l)) eqn:Hsym; simpl; rewrite Hsym; reflexivity.
Qed.

Lemma for_each_check_stack (l : loc) (hooks : list BP) :
  (forall bp, In bp hooks -> bp_action bp = act_check_stack) ->
  forall w,
    for_each hooks (fun bp => run_action l (bp_action bp)) w
    = (Ok tt, match hooks with
              | [] => w
              | _ :: _ => snd (_check_stack l w)
              end).
Proof.
  induction hooks as [|bp rest IH]; intros Hall w.
  - reflexivity.
  - cbn [for_each]. unfold bind at 1.
    rewrite (Hall bp (or_introl eq_refl)). cbn [run_action].
    rewrite _check_stack_returns.
    rewrite IH by (intros bp' Hin; apply Hall; right; exact Hin).
    destruct rest; [reflexivity|].
    rewrite _check_stack_idempotent. reflexivity.
Qed.

(** X8. The classifier as the engine fires it: on a state whose
    breakpoints after [state_step] are classifier hooks (what [setup]
    registers; at least one), the event classifies ExecStack and captures
    that very state as the crash state when the memory at its instruction
    pointer is symbolic, and changes nothing otherwise; it never raises
    and makes no call. *)
Theorem classifier_captures (l : loc) (w : World) :
  (forall bp, In bp (bps w l) ->
              bp_event bp = ev_state_step -> bp_when bp = BP_AFTER ->
              bp_action bp = act_check_stack) ->
  (exists bp, In bp (bps w l)
              /\ bp_event bp = ev_state_step /\ bp_when bp = BP_AFTER) ->
  fire l ev_state_step BP_AFTER w
  = (Ok tt,
     if ip_symbolic (heap w l)
     then snd (modify_self
                 (fun m => set_crash_state (set_crash_type m (Some EXEC_STACK)) (Some l))
                 w)
     else w).
Proof.
  intros Hall (bp0 & Hin0 & Hev0 & Hwh0). unfold fire. unfold bind at 1. simpl.
  rewrite for_each_check_stack.
  - match goal with
    | |- context [List.filter ?f ?xs] =>
        assert (Hin : In bp0 (List.filter f xs))
    end.
    { apply List.filter_In. split; [exact Hin0|].
      rewrite Hev0, Hwh0. reflexivity. }
    destruct (List.filter _ _) as [|bp rest]; [destruct Hin|].
    unfold _check_stack, bind. simpl.
    destruct (ip_symbolic (heap w l)); reflexivity.
  - intros bp Hin. apply List.filter_In in Hin. destruct Hin as [Hin Hmatch].
    apply andb_true_iff in Hmatch. destruct Hmatch as [Hev Hwh].
    apply bool_decide_eq_true in Hev. apply bool_decide_eq_true in Hwh.
    exact (Hall bp Hin Hev Hwh).
Qed.

Lemma classifier_captures_witness :
  let w := snd (setup (Toy.world 2%nat 3%nat (Toy.monitor [4096; 4100; 4104]%Z true))) in
  fire 3%nat ev_state_step BP_AFTER w
  = (Ok tt,
     snd (modify_self
            (fun m => set_crash_state (set_crash_type m (Some EXEC_STACK)) (Some 3%nat))
            w)).
Proof.
  intros w.
  apply (classifier_captures 3%nat w).
  - intros bp Hin Hev Hwh. vm_compute in Hin. destruct Hin as [<-|[]]. reflexivity.
  - eexists. split; [vm_compute; left; reflexivity|]. split; reflexivity.
Defined.

(** ** One tick of the driver *)

Lemma bind_ok_inv {A B} (c : M A) (k : A -> M B) (w w' : World) (b : B) :
  bind c k w = (Ok b, w') ->
  exists a w1, c w = (Ok a, w1) /\ k a w1 = (Ok b, w').
Proof.
  unfold bind. destruct (c w) as [[a|e] w1]; [|discriminate].
  intros H. exists a, w1. split; [reflexivity | exact H].
Qed.

(** With one active path, [step] is lines 61-76 run with [last_state]
    assigned. *)
Lemma step_one_active (E : Engine) (w : World) (l : loc) :
  active (simgr w) = [Some l] ->
  step E w
  = ((let* m := get_self in
      if _trim_history m && negb (_crash_mode m) then
        let* l := deref (last_state m) in
        modify_state l (E_history_trim E)
      else ret tt) ;;;
     simgr_step E ;;;
     check_deadend E) (tracked w l).
Proof.
  intros Hactive. unfold step. unfold bind at 1. simpl. rewrite Hactive. simpl.
  unfold bind at 1. simpl. unfold bind at 1. simpl. reflexivity.
Qed.

Lemma check_deadend_exec (E : Engine) (w : World) :
  _crash_type (self w) = Some EXEC_STACK -> check_deadend E w = (Ok tt, w).
Proof.
  intros H. unfold check_deadend, bind. simpl. rewrite H. reflexivity.
Qed.

Lemma check_deadend_no_trace (E : Engine) (w : World) (l : loc) :
  _crash_type (self w) <> Some EXEC_STACK ->
  last_state (self w) = Some l ->
  _trace (self w) = None ->
  check_deadend E w = (Raise TypeError, w).
Proof.
  intros Hne Hlast Htrace. unfold check_deadend, bind. simpl.
  rewrite bool_decide_eq_false_2 by exact Hne.
  rewrite Hlast. simpl. rewrite Htrace. reflexivity.
Qed.

Lemma check_deadend_trace (E : Engine) (w : World) (l : loc) (tr : list Z) :
  _crash_type (self w) <> Some EXEC_STACK ->
  last_state (self w) = Some l ->
  _trace (self w) = Some tr ->
  check_deadend E w
  = if Nat.leb (length tr) (bb_cnt (heap w l)) && _crash_mode (self w)
    then (simgr_step E ;;;
          modify_self (fun m => set_crash_type m (Some QEMU_CRASH))) w
    else (Ok tt, w).
Proof.
  intros Hne Hlast Htrace. unfold check_deadend. unfold bind at 1. simpl.
  rewrite bool_decide_eq_false_2 by exact Hne.
  unfold bind at 1. rewrite Hlast. simpl. unfold bind at 1. simpl.
  unfold bind at 1. rewrite Htrace. simpl.
  destruct (Nat.leb (length tr) (bb_cnt (heap w l)) && _crash_mode (self w));
    reflexivity.
Qed.

(** X9. An empty trace in crash mode: a tick with one active path
    classifies SegFault whatever the block counter is (no ExecStack
    having been classified, the engine steps returning), and the
    [complete()] that follows raises [IndexError] at [self._trace[-1]],
    line 47, before windup is entered and without producing a crash
    state. *)
Theorem empty_trace_crash_mode (E : Engine) (w : World) (l : loc) :
  _trace (self w) = Some [] ->
  _crash_mode (self w) = true ->
  active (simgr w) = [Some l] ->
  let w1 := snd (simgr_step E (tracked w l)) in
  fst (simgr_step E (tracked w l)) = Ok tt ->
  _crash_type (self w1) <> Some EXEC_STACK ->
  fst (simgr_step E w1) = Ok tt ->
  exists w',
    step E w = (Ok tt, w')
    /\ _crash_type (self w') = Some QEMU_CRASH
    /\ complete E w' = (Raise IndexError, w').
Proof.
  intros Htrace Hmode Hactive w1 Hstep1 Hexec Hstep2.
  pose proof (simgr_step_same_tracking E (tracked w l)) as Htrack1.
  pose proof (simgr_step_same_tracking E w1) as Htrack2.
  fold w1 in Htrack1. unfold same, tracking in Htrack1, Htrack2.
  unfold tracked in Htrack1. simpl in Htrack1.
  injection Htrack1 as Htr1 _ Hmode1 _ Hlast1.
  injection Htrack2 as Htr2 _ _ _ _.
  rewrite (step_one_active E w l Hactive).
  unfold bind at 1. unfold bind at 1. simpl. rewrite Hmode, andb_false_r.
  simpl. unfold bind at 1.
  destruct (simgr_step E (tracked w l)) as [r1 w1'] eqn:Hrun1.
  simpl in Hstep1. subst r1. subst w1. simpl in *.
  rewrite (check_deadend_trace E w1' l []); try assumption; [|congruence].
  simpl. rewrite Hmode1, Hmode. unfold bind.
  destruct (simgr_step E w1') as [r2 w2] eqn:Hrun2. simpl in *. subst r2.
  eexists. split; [reflexivity|]. split; [reflexivity|].
  unfold complete, bind. simpl. rewrite Htr2, Htr1, Htrace. reflexivity.
Qed.

Lemma empty_trace_crash_mode_witness :
  exists w',
    step Toy.E0 Toy.empty_trace_world = (Ok tt, w')
    /\ _crash_type (self w') = Some QEMU_CRASH
    /\ complete Toy.E0 w' = (Raise IndexError, w').
Proof.
  apply (empty_trace_crash_mode Toy.E0 Toy.empty_trace_world 0%nat).
  - reflexivity.
  - reflexivity.
  - vm_compute. reflexivity.
  - vm_compute. reflexivity.
  - vm_compute. discriminate.
  - vm_compute. reflexivity.
Defined.

(** X10. Divergence stalls the driver: with no active path or more than
    one, [step] does nothing at all (no engine call, no assignment), and as
    long as nothing is classified any sequence of [step] and [complete]
    calls leaves the whole world as it is, [complete()] answering false. *)
Theorem diverged_run_stalls (E : Engine) (w : World) :
  length (active (simgr w)) <> 1%nat ->
  step E w = (Ok tt, w)
  /\ (_crash_type (self w) = None ->
      complete E w = (Ok false, w)
      /\ forall ops,
           Forall (fun op => op = OpStep \/ op = OpComplete) ops ->
           run_ops E ops w = w).
Proof.
  intros Hlen.
  assert (Hstep : step E w = (Ok tt, w)).
  { unfold step, bind. simpl.
    destruct (Nat.eqb_spec (length (active (simgr w))) 1); [contradiction|].
    reflexivity. }
  split; [exact Hstep|]. intros Hnone.
  assert (Hcomplete : complete E w = (Ok false, w)).
  { unfold complete, bind. simpl. rewrite Hnone. reflexivity. }
  split; [exact Hcomplete|].
  induction 1 as [|op ops [->| ->] _ IH]; simpl.
  - reflexivity.
  - rewrite Hstep. exact IH.
  - unfold bind. rewrite Hcomplete. exact IH.
Qed.

Lemma diverged_run_stalls_witness :
  step Toy.E0 Toy.diverged_world = (Ok tt, Toy.diverged_world)
  /\ run_ops Toy.E0 [OpStep; OpComplete; OpStep] Toy.diverged_world
     = Toy.diverged_world.
Proof.
  assert (Hlen : length (active (simgr Toy.diverged_world)) <> 1%nat).
  { vm_compute. lia. }
  destruct (diverged_run_stalls Toy.E0 Toy.diverged_world Hlen) as [Hstep Hrun].
  split; [exact Hstep|].
  apply (proj2 (Hrun eq_refl)).
  repeat (constructor; [first [left; reflexivity | right; reflexivity]|]).
  constructor.
Defined.

Lemma step_body_same_tracking (E : Engine) :
  preserves (same tracking)
    ((let* m := get_self in
      if _trim_history m && negb (_crash_mode m) then
        let* l := deref (last_state m) in
        modify_state l (E_history_trim E)
      else ret tt) ;;;
     simgr_step E ;;;
     check_deadend E).
Proof.
  unfold check_deadend. preserves_auto; apply simgr_step_same_tracking.
Qed.

(** X11. What [step] leaves on [self]: the construction-time attributes
    are never touched; with one active path [last_state] refers to the
    path that was active when [step] was called, whatever became of the
    engine step, and without exactly one [last_state] is not assigned. *)
Theorem step_tracks_stepped_state (E : Engine) (w : World) :
  config (snd (step E w)) = config w
  /\ (forall l, active (simgr w) = [Some l] ->
                last_state (self (snd (step E w))) = Some l)
  /\ (length (active (simgr w)) <> 1%nat ->
      last_state (self (snd (step E w))) = last_state (self w)).
Proof.
  assert (Hone : forall l, active (simgr w) = [Some l] ->
                           tracking (snd (step E w)) = tracking (tracked w l)).
  { intros l Hactive. rewrite (step_one_active E w l Hactive).
    apply (step_body_same_tracking E (tracked w l)). }
  assert (Hdiv : length (active (simgr w)) <> 1%nat -> step E w = (Ok tt, w)).
  { intros Hlen. unfold step, bind. simpl.
    destruct (Nat.eqb_spec (length (active (simgr w))) 1); [contradiction|].
    reflexivity. }
  split; [|split].
  - destruct (active (simgr w)) as [|[l|] [|a1 rest]] eqn:Hactive.
    + rewrite Hdiv by (simpl; lia). reflexivity.
    + specialize (Hone l eq_refl). unfold tracking, tracked in Hone. simpl in Hone.
      unfold config. congruence.
    + rewrite Hdiv by (simpl; lia). reflexivity.
    + unfold step, bind. simpl. rewrite Hactive. simpl.
      destruct (_trim_history (self w) && negb (_crash_mode (self w))); simpl.
      * reflexivity.
      * match goal with
        | |- config (snd (let (o, w') := simgr_step E ?W in _)) = _ =>
            pose proof (simgr_step_same_tracking E W) as H1;
            destruct (simgr_step E W) as [[[]|e] w1]
        end; simpl in *.
        -- unfold check_deadend, bind. simpl.
           unfold same, tracking in H1. simpl in H1.
           injection H1 as Ht Htr Hm Ha Hl.
           destruct (bool_decide _); simpl; [unfold config; congruence|].
           rewrite Hl. simpl. unfold config. congruence.
        -- unfold same, tracking in H1. simpl in H1. unfold config. congruence.
    + rewrite Hdiv by (simpl; lia). reflexivity.
  - intros l Hactive. specialize (Hone l Hactive).
    unfold tracking, tracked in Hone. simpl in Hone. congruence.
  - intros Hlen. rewrite (Hdiv Hlen). reflexivity.
Qed.

Lemma step_tracks_stepped_state_witness :
  last_state (self (snd (step Toy.E0 Toy.w3))) = Some 3%nat.
Proof.
  apply (proj1 (proj2 (step_tracks_stepped_state Toy.E0 Toy.w3)) 3%nat).
  vm_compute. reflexivity.
Defined.

(** ** Runs in which no fault is expected *)

#[global] Instance guarded_preorder (P : World -> Prop) : PreOrder (guarded P).
Proof.
  split.
  - intros w Hw. split; [exact Hw | reflexivity].
  - intros w1 w2 w3 H12 H23 Hw. destruct (H12 Hw) as [Hw2 Hk12].
    destruct (H23 Hw2) as [Hw3 Hk23]. split; [exact Hw3|].
    etransitivity; eassumption.
Qed.

Lemma preserves_guarded (P : World -> Prop) {A} (c : M A) :
  (forall w w', config w' = config w -> P w -> P w') ->
  preserves (same config) c ->
  preserves kept_or_exec c ->
  preserves (guarded P) c.
Proof.
  intros HP Hconfig Hkept w Hw. split.
  - exact (HP w _ (Hconfig w) Hw).
  - apply Hkept.
Qed.

Lemma no_fault_expected_config (w w' : World) :
  config w' = config w -> no_fault_expected w -> no_fault_expected w'.
Proof.
  unfold config, no_fault_expected. intros H. injection H as Ht _ Hm _.
  rewrite Ht, Hm. auto.
Qed.

Lemma fire_same_config (l : loc) (ev : EventType) (wh : When) :
  preserves (same config) (fire l ev wh).
Proof. unfold fire, run_action, _check_stack. preserves_auto. Qed.

Lemma simgr_step_same_config (E : Engine) : preserves (same config) (simgr_step E).
Proof. unfold simgr_step. preserves_auto. apply fire_same_config. Qed.

Lemma state_step_same_config (E : Engine) (l : loc) (n : option nat) :
  preserves (same config) (state_step E l n).
Proof. unfold state_step, concretize. preserves_auto; apply fire_same_config. Qed.

Lemma complete_same_config (E : Engine) : preserves (same config) (complete E).
Proof.
  unfold complete, _crash_windup, windup_prepare, windup_resume, windup_finish,
    adopt_successor, add_concretized_constraints, constrain_concretized,
    add_constraints, remove_breakpoint, inspect_b.
  preserves_auto; apply state_step_same_config.
Qed.

Lemma setup_same_config : preserves (same config) setup.
Proof. unfold setup, inspect_b. preserves_auto. Qed.

Lemma _check_stack_same_config (l : loc) : preserves (same config) (_check_stack l).
Proof. unfold _check_stack. preserves_auto. Qed.

Lemma check_deadend_no_fault (E : Engine) :
  preserves (guarded no_fault_expected) (check_deadend E).
Proof.
  intros w Hw. unfold check_deadend, bind. simpl.
  case_bool_decide as Hexec; simpl.
  - split; [exact Hw | reflexivity].
  - destruct (last_state (self w)) as [l|]; simpl; [|split; [exact Hw | reflexivity]].
    destruct Hw as [Hmode|Htrace].
    + destruct (_trace (self w)) as [tr|]; simpl.
      * rewrite Hmode, andb_false_r. split; [left; exact Hmode | reflexivity].
      * split; [left; exact Hmode | reflexivity].
    + rewrite Htrace. simpl. split; [right; exact Htrace | reflexivity].
Qed.

Ltac no_fault_leaf :=
  match goal with
  | |- preserves (guarded no_fault_expected) (check_deadend _) =>
      apply check_deadend_no_fault
  | |- preserves (guarded no_fault_expected) (simgr_step _) =>
      apply preserves_guarded;
      [ exact no_fault_expected_config
      | apply simgr_step_same_config
      | apply simgr_step_kept_or_exec ]
  | |- preserves (guarded no_fault_expected) _ =>
      apply preserves_guarded;
      [ exact no_fault_expected_config | preserves_auto | preserves_auto ]
  | |- forall h : Heap, preserves (guarded no_fault_expected) _ =>
      intros ?; apply preserves_guarded;
      [ exact no_fault_expected_config | preserves_auto | preserves_auto ]
  end.

Lemma step_no_fault (E : Engine) : preserves (guarded no_fault_expected) (step E).
Proof. unfold step. preserves_auto; no_fault_leaf. Qed.

Lemma run_op_no_fault (E : Engine) (op : Op) :
  preserves (guarded no_fault_expected) (run_op E op).
Proof.
  destruct op; simpl.
  - apply preserves_guarded;
      [exact no_fault_expected_config | apply setup_same_config
      | apply setup_kept_or_exec].
  - apply step_no_fault.
  - apply preserves_guarded; [exact no_fault_expected_config | | ].
    + preserves_auto. apply complete_same_config.
    + preserves_auto. apply complete_kept_or_exec.
  - apply preserves_guarded;
      [exact no_fault_expected_config | apply _check_stack_same_config
      | apply _check_stack_kept_or_exec].
Qed.

(** X12. SegFault needs crash mode and a trace: for a monitor built
    without crash mode (the default) or without a trace, no sequence of
    the component's operations ever classifies SegFault; the
    classification stays what it was or becomes ExecStack, so windup is
    never asked for by a run that started unclassified. *)
Theorem no_segfault_without_crash_mode (E : Engine) (ops : list Op) (w : World) :
  _crash_mode (self w) = false \/ _trace (self w) = None ->
  _crash_type (self w) <> Some QEMU_CRASH ->
  _crash_type (self (run_ops E ops w)) <> Some QEMU_CRASH.
Proof.
  intros Hw Hne.
  assert (Hrun : forall ops w, guarded no_fault_expected w (run_ops E ops w)).
  { clear. induction ops as [|op rest IH]; intros w; simpl.
    - reflexivity.
    - etransitivity; [apply (run_op_no_fault E op w) | apply IH]. }
  destruct (Hrun ops w Hw) as [_ [Hk|Hk]].
  - rewrite Hk. exact Hne.
  - rewrite Hk. discriminate.
Qed.

Lemma no_segfault_without_crash_mode_witness :
  _crash_type (self (run_ops Toy.E0 [OpSetup; OpStep; OpStep; OpComplete]
                       Toy.default_world))
  <> Some QEMU_CRASH.
Proof.
  apply (no_segfault_without_crash_mode Toy.E0 _ Toy.default_world).
  - left. reflexivity.
  - discriminate.
Defined.

Lemma step_from_engine_step (E : Engine) (w : World) (l : loc) :
  active (simgr w) = [Some l] ->
  step E w = (simgr_step E ;;; check_deadend E) (before_engine_step E w l).
Proof.
  intros Hactive. rewrite (step_one_active E w l Hactive).
  unfold before_engine_step. unfold bind at 1. unfold bind at 1. simpl.
  destruct (_trim_history (self w) && negb (_crash_mode (self w))); reflexivity.
Qed.

Lemma before_engine_step_tracking (E : Engine) (w : World) (l : loc) :
  tracking (before_engine_step E w l) = tracking (tracked w l)
  /\ calls (before_engine_step E w l) = calls w
  /\ _crash_type (self (before_engine_step E w l)) = _crash_type (self w).
Proof.
  unfold before_engine_step.
  destruct (_trim_history (self w) && negb (_crash_mode (self w))); auto.
Qed.

(** X13. A monitor without a trace (the constructor's default): with one
    active path, [step] returns normally only when ExecStack is the
    classification after the engine step; otherwise, the engine step
    having returned, line 73 raises [TypeError] on [len(self._trace)],
    whether or not crash mode is set, and nothing further is stepped or
    classified. *)
Theorem step_without_trace (E : Engine) (w : World) (l : loc) :
  _trace (self w) = None ->
  active (simgr w) = [Some l] ->
  let w1 := snd (simgr_step E (before_engine_step E w l)) in
  (forall w', step E w = (Ok tt, w') ->
              w' = w1 /\ _crash_type (self w') = Some EXEC_STACK)
  /\ (fst (simgr_step E (before_engine_step E w l)) = Ok tt ->
      _crash_type (self w1) <> Some EXEC_STACK ->
      step E w = (Raise TypeError, w1)).
Proof.
  intros Htrace Hactive w1.
  destruct (before_engine_step_tracking E w l) as (Htrack0 & _ & _).
  pose proof (simgr_step_same_tracking E (before_engine_step E w l)) as Htrack1.
  fold w1 in Htrack1. unfold same in Htrack1. rewrite Htrack0 in Htrack1.
  unfold tracking, tracked in Htrack1. simpl in Htrack1.
  injection Htrack1 as Htr1 _ _ _ Hlast1. rewrite Htrace in Htr1.
  rewrite (step_from_engine_step E w l Hactive). unfold bind.
  subst w1. destruct (simgr_step E (before_engine_step E w l)) as [[[]|e] w1];
    simpl in *.
  - destruct (option_eq_dec (_crash_type (self w1)) (Some EXEC_STACK)) as [Hexec|Hexec].
    + rewrite (check_deadend_exec E w1 Hexec). split.
      * intros w' H. injection H as <-. auto.
      * intros _ Hne. contradiction.
    + rewrite (check_deadend_no_trace E w1 l Hexec Hlast1 Htr1). split.
      * intros w' H. discriminate.
      * reflexivity.
  - split; [intros w' H; discriminate | intros H; discriminate].
Qed.

Lemma step_without_trace_witness :
  step Toy.E0 Toy.default_world
  = (Raise TypeError,
     snd (simgr_step Toy.E0 (before_engine_step Toy.E0 Toy.default_world 0%nat))).
Proof.
  apply (proj2 (step_without_trace Toy.E0 Toy.default_world 0%nat eq_refl eq_refl)).
  - vm_compute. reflexivity.
  - vm_compute. discriminate.
Defined.

(** ** The calls of the driver *)

#[global] Instance no_manager_step_preorder : PreOrder no_manager_step.
Proof.
  split.
  - intros w. exists []. rewrite app_nil_r. split; [reflexivity | intros []].
  - intros w1 w2 w3 (cs1 & H1 & Hn1) (cs2 & H2 & Hn2). exists (cs1 ++ cs2).
    rewrite H2, H1, app_assoc. split; [reflexivity|].
    intros Hin. apply in_app_or in Hin. tauto.
Qed.

Ltac no_manager_step_leaf :=
  match goal with
  | |- preserves no_manager_step (record_call ?c) =>
      intros ?; exists [c]; split;
      [reflexivity | intros [Heq|[]]; discriminate]
  | |- preserves no_manager_step _ =>
      intros ?; exists []; split; [rewrite app_nil_r; reflexivity | intros []]
  | |- forall h : Heap, preserves no_manager_step _ =>
      intros ? ?; exists []; split; [rewrite app_nil_r; reflexivity | intros []]
  end.

Lemma complete_no_manager_step (E : Engine) : preserves no_manager_step (complete E).
Proof.
  unfold complete, _crash_windup, windup_prepare, windup_resume, windup_finish,
    adopt_successor, add_concretized_constraints, constrain_concretized,
    add_constraints, remove_breakpoint, inspect_b, state_step, concretize, fire,
    run_action, _check_stack.
  preserves_auto; no_manager_step_leaf.
Qed.

Lemma check_deadend_calls (E : Engine) (w : World) :
  exists k, (k <= 1)%nat
            /\ calls (snd (check_deadend E w)) = calls w ++ repeat CallSimgrStep k.
Proof.
  unfold check_deadend, bind. simpl.
  destruct (bool_decide _); simpl;
    [exists 0%nat; rewrite app_nil_r; split; [lia | reflexivity]|].
  destruct (last_state (self w)) as [l|]; simpl;
    [|exists 0%nat; rewrite app_nil_r; split; [lia | reflexivity]].
  destruct (_trace (self w)) as [tr|]; simpl;
    [|exists 0%nat; rewrite app_nil_r; split; [lia | reflexivity]].
  destruct (Nat.leb (length tr) (bb_cnt (heap w l)) && _crash_mode (self w)); simpl;
    [|exists 0%nat; rewrite app_nil_r; split; [lia | reflexivity]].
  pose proof (simgr_step_calls E w) as Hcalls.
  destruct (simgr_step E w) as [[[]|e] w1]; simpl in *;
    exists 1%nat; split; try lia; exact Hcalls.
Qed.

Lemma engine_step_and_check_calls (E : Engine) (w : World) :
  exists k, (k <= 2)%nat
            /\ calls (snd ((simgr_step E ;;; check_deadend E) w))
               = calls w ++ repeat CallSimgrStep k.
Proof.
  unfold bind. pose proof (simgr_step_calls E w) as Hcalls.
  destruct (simgr_step E w) as [[[]|e] w1]; simpl in *.
  - destruct (check_deadend_calls E w1) as (k & Hk & Hc).
    exists (S k). split; [lia|]. rewrite Hc, Hcalls, <- app_assoc. reflexivity.
  - exists 1%nat. split; [lia | exact Hcalls].
Qed.

Lemma step_calls_cases (E : Engine) (w : World) :
  calls (snd (step E w)) = calls w
  \/ exists w0, calls w0 = calls w
                /\ snd (step E w) = snd ((simgr_step E ;;; check_deadend E) w0).
Proof.
  remember (step E w) as r eqn:Hr.
  unfold step in Hr. unfold bind at 1 in Hr. simpl in Hr.
  destruct (Nat.eqb (length (active (simgr w))) 1); [|subst r; left; reflexivity].
  unfold bind at 1 in Hr. simpl in Hr.
  destruct (py_index (active (simgr w)) 0) as [a0|e]; simpl in Hr;
    [|subst r; left; reflexivity].
  unfold bind at 1 in Hr. simpl in Hr. unfold bind at 1 in Hr. simpl in Hr.
  unfold bind at 1 in Hr.
  destruct (_trim_history (self w) && negb (_crash_mode (self w))); simpl in Hr.
  - unfold bind at 1 in Hr. destruct a0 as [l|]; simpl in Hr;
      [|subst r; left; reflexivity].
    right. eexists. split; [|rewrite Hr; reflexivity]. reflexivity.
  - right. eexists. split; [|rewrite Hr; reflexivity]. reflexivity.
Qed.

(** X14. Who steps what: one [step] calls [simgr.step()] at most twice
    and never enters windup, steps a state on its own, adds a constraint
    or removes a breakpoint; [complete] never calls [simgr.step()], and
    unless SegFault is the classification it does none of these five
    things. (The history trim of [step] and the stash builder of
    [complete] are not among them.) *)
Theorem driver_calls_separated (E : Engine) (w : World) :
  (exists k, (k <= 2)%nat
             /\ calls (snd (step E w)) = calls w ++ repeat CallSimgrStep k)
  /\ (exists cs, calls (snd (complete E w)) = calls w ++ cs
                 /\ ~ In CallSimgrStep cs
                 /\ (_crash_type (self w) <> Some QEMU_CRASH -> cs = [])).
Proof.
  split.
  - destruct (step_calls_cases E w) as [Hsame|(w0 & Hw0 & Hstep)].
    + exists 0%nat. split; [lia|]. rewrite Hsame, app_nil_r. reflexivity.
    + destruct (engine_step_and_check_calls E w0) as (k & Hk & Hc).
      exists k. split; [exact Hk|]. rewrite Hstep, Hc, Hw0. reflexivity.
  - destruct (complete_no_manager_step E w) as (cs & Hcs & Hno).
    exists cs. split; [exact Hcs|]. split; [exact Hno|].
    intros Hne.
    assert (Hsame : calls (snd (complete E w)) = calls w).
    { unfold complete, bind. simpl.
      destruct (_crash_type (self w)) as [[|]|]; simpl;
        [reflexivity | congruence | reflexivity]. }
    rewrite Hsame in Hcs.
    rewrite <- (app_nil_r (calls w)) in Hcs at 1.
    apply app_inv_head in Hcs. symmetry. exact Hcs.
Qed.

Lemma driver_calls_separated_witness :
  (exists k, (k <= 2)%nat
             /\ calls (snd (step Toy.E0 Toy.w3))
                = calls Toy.w3 ++ repeat CallSimgrStep k)
  /\ (exists cs, calls (snd (complete Toy.E0 Toy.w3)) = calls Toy.w3 ++ cs
                 /\ ~ In CallSimgrStep cs
                 /\ (_crash_type (self Toy.w3) <> Some QEMU_CRASH -> cs = [])).
Proof. exact (driver_calls_separated Toy.E0 Toy.w3). Defined.

(** ** Windup on a preconstrained state *)

Lemma _add_constraints_raises (state : SimState) :
  _constrained_addrs (preconstrainer state) <> [] ->
  exists e, _add_constraints state = Raise e.
Proof.
  intros Hne. unfold _add_constraints.
  destruct (_to_indices _) as [hit|e]; simpl; [|eexists; reflexivity].
  rewrite (_add_constraints_loop_nonempty hit _ Hne). eexists. reflexivity.
Qed.

Lemma static_hook_raises (l : loc) (a : Action) (w : World) :
  a <> act_check_stack ->
  _constrained_addrs (preconstrainer (heap w l)) <> [] ->
  exists e, run_action l a w = (Raise e, w).
Proof.
  intros Ha Hne. destruct (_add_constraints_raises _ Hne) as [e He].
  destruct a; [congruence| |]; simpl; unfold update_state.
  - unfold _dont_add_constraints. rewrite He. simpl. eexists. reflexivity.
  - unfold _grab_concretization_results. rewrite He. simpl. eexists. reflexivity.
Qed.

Lemma hooks_raise (l : loc) (hooks : list BP) :
  forall w,
    _constrained_addrs (preconstrainer (heap w l)) <> [] ->
    (exists bp, In bp hooks /\ bp_action bp <> act_check_stack) ->
    exists e w',
      for_each hooks (fun bp => run_action l (bp_action bp)) w = (Raise e, w')
      /\ heap w' = heap w /\ calls w' = calls w /\ simgr w' = simgr w.
Proof.
  induction hooks as [|bp rest IH]; intros w Hne (bp0 & Hin & Hact).
  - destruct Hin.
  - cbn [for_each]. unfold bind at 1.
    destruct (bp_action bp) eqn:Hbp.
    + cbn [run_action]. rewrite _check_stack_returns.
      assert (Hframe : heap (snd (_check_stack l w)) = heap w
                       /\ calls (snd (_check_stack l w)) = calls w
                       /\ simgr (snd (_check_stack l w)) = simgr w).
      { unfold _check_stack, bind. simpl.
        destruct (ip_symbolic (heap w l)); auto. }
      destruct Hframe as (Hh & Hc & Hs).
      destruct (IH (snd (_check_stack l w))) as (e & w' & Hrun & Hh' & Hc' & Hs').
      * rewrite Hh. exact Hne.
      * exists bp0. split; [|exact Hact].
        destruct Hin as [->|Hin]; [congruence | exact Hin].
      * exists e, w'. split; [exact Hrun|]. repeat split; congruence.
    + destruct (static_hook_raises l act_dont_add_constraints w) as [e He];
        [discriminate | exact Hne|].
      rewrite He. exists e, w. auto.
    + destruct (static_hook_raises l act_grab_concretization_results w) as [e He];
        [discriminate | exact Hne|].
      rewrite He. exists e, w. auto.
Qed.

Lemma fire_raises (l : loc) (ev : EventType) (wh : When) (w : World) :
  _constrained_addrs (preconstrainer (heap w l)) <> [] ->
  (exists bp, In bp (bps w l)
              /\ bp_event bp = ev /\ bp_when bp = wh
              /\ bp_action bp <> act_check_stack) ->
  exists e w',
    fire l ev wh w = (Raise e, w')
    /\ heap w' = heap w /\ calls w' = calls w /\ simgr w' = simgr w.
Proof.
  intros Hne (bp & Hin & Hev & Hwh & Hact).
  unfold fire, bind. simpl. apply hooks_raise; [exact Hne|].
  exists bp. split; [|exact Hact]. apply List.filter_In. split; [exact Hin|].
  rewrite Hev, Hwh. rewrite !bool_decide_eq_true_2 by reflexivity. reflexivity.
Qed.

Lemma concretize_raises (l : loc) (ev : Expr * option (list Z)) (w : World) :
  _constrained_addrs (preconstrainer (heap w l)) <> [] ->
  (exists bp, In bp (bps w l)
              /\ bp_event bp = ev_address_concretization /\ bp_when bp = BP_BEFORE
              /\ bp_action bp <> act_check_stack) ->
  exists e w',
    concretize l ev w = (Raise e, w')
    /\ bps w' l = bps w l /\ calls w' = calls w /\ simgr w' = simgr w.
Proof.
  intros Hne Hhook.
  unfold concretize. unfold bind at 1.
  unfold modify_state at 1, update_state at 1, put_heap at 1. cbn beta iota.
  unfold bind at 1.
  match goal with
  | |- context [fire l ev_address_concretization BP_BEFORE ?W] =>
      destruct (fire_raises l ev_address_concretization BP_BEFORE W)
        as (e & w' & Hrun & Hh & Hc & Hs)
  end.
  - simpl. unfold heap_set. rewrite Nat.eqb_refl. exact Hne.
  - unfold bps. simpl. unfold heap_set. rewrite Nat.eqb_refl. exact Hhook.
  - rewrite Hrun. exists e, w'. split; [reflexivity|].
    unfold bps. rewrite Hh, Hc, Hs. simpl. unfold heap_set.
    rewrite Nat.eqb_refl. auto.
Qed.

Lemma state_step_raises (E : Engine) (l : loc) (n : option nat) (w : World) :
  (forall h, E_concretizations E h l n <> []) ->
  _constrained_addrs (preconstrainer (heap w l)) <> [] ->
  (exists bp, In bp (bps w l)
              /\ bp_event bp = ev_address_concretization /\ bp_when bp = BP_BEFORE
              /\ bp_action bp <> act_check_stack) ->
  exists e w',
    state_step E l n w = (Raise e, w')
    /\ bps w' l = bps w l
    /\ calls w' = calls w ++ [CallStateStep l n]
    /\ simgr w' = simgr w.
Proof.
  intros Hevents Hne Hhook.
  unfold state_step. unfold bind at 1. unfold record_call at 1. cbn beta iota.
  unfold bind at 1. unfold get_heap at 1. cbn beta iota. cbn [heap].
  destruct (E_concretizations E (heap w) l n) as [|ev evs] eqn:Hevs;
    [exfalso; exact (Hevents _ Hevs)|].
  unfold bind at 1. cbn [for_each]. unfold bind at 1.
  match goal with
  | |- context [concretize l ev ?W] =>
      destruct (concretize_raises l ev W Hne Hhook) as (e & w' & Hrun & Hb & Hc & Hs)
  end.
  rewrite Hrun. exists e, w'. split; [reflexivity|]. auto.
Qed.

Lemma py_last_nonempty {A} (xs : list A) :
  xs <> [] -> exists x, py_last xs = Ok x.
Proof.
  intros Hne. unfold py_last. destruct (rev xs) as [|x rest] eqn:Hrev.
  - exfalso. apply Hne. apply (f_equal (@rev A)) in Hrev.
    rewrite rev_involutive in Hrev. exact Hrev.
  - exists x. reflexivity.
Qed.

Lemma windup_prepare_raises (E : Engine) (l : loc) (w : World) :
  (forall h, E_concretizations E h l None <> []) ->
  _constrained_addrs (preconstrainer (heap w l)) <> [] ->
  let bp1 := mkBP (fresh_handle (bps w l)) ev_address_concretization BP_BEFORE
               act_dont_add_constraints in
  let bp2 := mkBP (fresh_handle (bps w l ++ [bp1])) ev_address_concretization BP_AFTER
               act_grab_concretization_results in
  exists e w',
    windup_prepare E l w = (Raise e, w')
    /\ bps w' l = bps w l ++ [bp1; bp2]
    /\ calls w' = calls w ++ [CallStateStep l None]
    /\ simgr w' = simgr w.
Proof.
  intros Hevents Hne bp1 bp2.
  unfold windup_prepare, inspect_b, bind. simpl.
  match goal with
  | |- context [state_step E l None ?W] =>
      destruct (state_step_raises E l None W Hevents)
        as (e & w' & Hrun & Hb & Hc & Hs)
  end.
  - simpl. unfold heap_set. rewrite !Nat.eqb_refl. simpl. exact Hne.
  - exists bp1. unfold bps. simpl. unfold heap_set. rewrite !Nat.eqb_refl. simpl.
    split; [|repeat split; discriminate].
    apply in_or_app. left. apply in_or_app. right. left. reflexivity.
  - rewrite Hrun. exists e, w'. split; [reflexivity|].
    rewrite Hb, Hc, Hs. unfold bps. simpl. unfold heap_set. rewrite !Nat.eqb_refl.
    simpl. rewrite <- !app_assoc. auto.
Qed.

(** X15. Windup cannot succeed on a preconstrained state whose crashing
    block resolves an address: when the tracked state has a registered
    constrained address and the full block step runs into an address
    concretization, the pre-resolution hook raises inside that step
    (line 104), so [_crash_windup] and the [complete()] that called it
    raise the same exception; no crash state is produced, the manager's
    stashes are untouched, and the two hooks are still registered on the
    tracked state, lines 139-140 never being reached. *)
Theorem windup_raises_on_preconstrained (E : Engine) (w : World) (l : loc)
    (tr : list Z) :
  _crash_type (self w) = Some QEMU_CRASH ->
  _trace (self w) = Some tr -> tr <> [] ->
  last_state (self w) = Some l ->
  _constrained_addrs (preconstrainer (heap w l)) <> [] ->
  (forall h, E_concretizations E h l None <> []) ->
  let bp1 := mkBP (fresh_handle (bps w l)) ev_address_concretization BP_BEFORE
               act_dont_add_constraints in
  let bp2 := mkBP (fresh_handle (bps w l ++ [bp1])) ev_address_concretization BP_AFTER
               act_grab_concretization_results in
  exists e w',
    _crash_windup E w = (Raise e, w')
    /\ complete E w = (Raise e, w')
    /\ bps w' l = bps w l ++ [bp1; bp2]
    /\ calls w' = calls w ++ [CallWindup; CallStateStep l None]
    /\ simgr w' = simgr w.
Proof.
  intros Htype Htrace Hnonempty Hlast Hne Hevents bp1 bp2.
  destruct (py_last_nonempty tr Hnonempty) as [x Hx].
  assert (Hwind : exists e w',
             _crash_windup E w = (Raise e, w')
             /\ bps w' l = bps w l ++ [bp1; bp2]
             /\ calls w' = calls w ++ [CallWindup; CallStateStep l None]
             /\ simgr w' = simgr w).
  { unfold _crash_windup. unfold bind at 1. simpl.
    unfold bind at 1. simpl. rewrite Hlast. unfold bind at 1. simpl.
    unfold bind at 1.
    match goal with
    | |- context [windup_prepare E l ?W] =>
        destruct (windup_prepare_raises E l W Hevents Hne)
          as (e & w' & Hrun & Hb & Hc & Hs)
    end.
    rewrite Hrun. exists e, w'. split; [reflexivity|].
    rewrite Hb, Hc, Hs. simpl. rewrite <- !app_assoc. auto. }
  destruct Hwind as (e & w' & Hrun & Hb & Hc & Hs).
  exists e, w'. split; [exact Hrun|]. split; [|auto].
  unfold complete, bind. simpl. rewrite Htype. simpl. rewrite Htrace. simpl.
  rewrite Hx. rewrite Hrun. reflexivity.
Qed.

Lemma windup_raises_on_preconstrained_witness :
  exists e w',
    _crash_windup (Toy.engine [(Toy.expr_stdin, Some [4096%Z])])
      Toy.preconstrained_world = (Raise e, w')
    /\ complete (Toy.engine [(Toy.expr_stdin, Some [4096%Z])])
         Toy.preconstrained_world = (Raise e, w')
    /\ calls w' = calls Toy.preconstrained_world
                  ++ [CallWindup; CallStateStep 3%nat None].
Proof.
  destruct (windup_raises_on_preconstrained
              (Toy.engine [(Toy.expr_stdin, Some [4096%Z])])
              Toy.preconstrained_world 3%nat [4096; 4100; 4104]%Z)
    as (e & w' & Hwind & Hcomplete & _ & Hcalls & _).
  - reflexivity.
  - reflexivity.
  - discriminate.
  - reflexivity.
  - vm_compute. discriminate.
  - intros h. simpl. discriminate.
  - exists e, w'. auto.
Defined.

(** ** Windup when the final step has no successor *)

Lemma state_step_quiet (E : Engine) (st : loc) (n : option nat) (w : World) :
  (forall h, E_concretizations E h st n = []) ->
  state_step E st n w
  = (let '(h', flat, unc) := E_successors E (heap w) st n in
     (Ok (flat, unc),
      {| heap := h'; simgr := simgr w; self := self w;
         calls := calls w ++ [CallStateStep st n] |})).
Proof.
  intros Hquiet. unfold state_step, bind. simpl. rewrite Hquiet. simpl.
  destruct (E_successors E (heap w) st n) as [[h' flat] unc]. reflexivity.
Qed.

Lemma adopt_successor_raises_index (E : Engine) (state : loc) (succs : list loc)
    (w w' : World) (e : exn) :
  adopt_successor E state succs w = (Raise e, w') -> e = IndexError.
Proof.
  unfold adopt_successor. destruct (Nat.ltb 0 (length succs)); [|discriminate].
  unfold bind. simpl.
  match goal with
  | |- context [py_index ?xs 0] =>
      unfold py_index; destruct (nth_error xs 0)
  end; simpl.
  - discriminate.
  - intros H. injection H as <- _. reflexivity.
Qed.

Lemma windup_finish_dead_end (E : Engine) (st : loc) (bp1 bp2 : BP) (w : World) :
  (forall h, E_concretizations E h st None = []) ->
  (forall h, exists h', E_successors E h st None = (h', [], [])) ->
  exists w', windup_finish E st bp1 bp2 w = (Raise IndexError, w').
Proof.
  intros Hquiet Hdead. unfold windup_finish, remove_breakpoint, bind. simpl.
  rewrite (state_step_quiet E st None _ Hquiet).
  match goal with
  | |- context [E_successors E ?h st None] => destruct (Hdead h) as [h' ->]
  end.
  simpl. eexists. reflexivity.
Qed.

Lemma windup_resume_dead_end (E : Engine) (l : loc) (bp1 bp2 : BP) (w : World) :
  (forall h st n, E_concretizations E h st n = []) ->
  (forall h st, exists h', E_successors E h st None = (h', [], [])) ->
  exists w', windup_resume E l bp1 bp2 w = (Raise IndexError, w').
Proof.
  intros Hquiet Hdead.
  unfold windup_resume. unfold bind at 1. simpl. unfold bind at 1. simpl.
  unfold bind at 1. simpl.
  destruct (windup_insts_total (_crash_addr (self w))
              (E_instruction_addrs E (heap w l))) as [insts ->]. simpl.
  unfold bind at 1.
  rewrite (state_step_quiet E l (Some insts) w (fun h => Hquiet h l (Some insts))).
  destruct (E_successors E (heap w) l (Some insts)) as [[h' succs] unc]. simpl.
  unfold bind at 1.
  match goal with
  | |- context [adopt_successor E l succs ?W] =>
      destruct (adopt_successor E l succs W) as [[st|e] w4] eqn:Hadopt
  end; simpl.
  - unfold bind at 1. simpl. unfold bind at 1. simpl.
    apply (windup_finish_dead_end E st bp1 bp2 _
             (fun h => Hquiet h st None) (fun h => Hdead h st)).
  - apply adopt_successor_raises_index in Hadopt. subst e.
    eexists. reflexivity.
Qed.

(** X16. When the engine's full steps have no successor of either kind
    (and the run resolves no address), windup cannot return: it raises
    [IndexError], at line 145 on the empty list of the final step's
    successors (or already at line 128 when none of several successors of
    the partial step is satisfiable), and so does the [complete()] that
    called it. *)
Theorem windup_dead_end (E : Engine) (w : World) (l : loc) :
  last_state (self w) = Some l ->
  (forall h st n, E_concretizations E h st n = []) ->
  (forall h st, exists h', E_successors E h st None = (h', [], [])) ->
  (exists w', _crash_windup E w = (Raise IndexError, w'))
  /\ (_crash_type (self w) = Some QEMU_CRASH ->
      forall tr, _trace (self w) = Some tr -> tr <> [] ->
                 exists w', complete E w = (Raise IndexError, w')).
Proof.
  intros Hlast Hquiet Hdead.
  assert (Hwind : exists w', _crash_windup E w = (Raise IndexError, w')).
  { unfold _crash_windup. unfold bind at 1. simpl.
    unfold bind at 1. simpl. rewrite Hlast. unfold bind at 1. simpl.
    unfold bind at 1.
    match goal with
    | |- context [windup_prepare E l ?W] =>
        assert (Hprep : exists bp1 bp2 w1, windup_prepare E l W = (Ok (bp1, bp2), w1))
    end.
    { unfold windup_prepare, inspect_b, bind. simpl.
      rewrite (state_step_quiet E l None _ (fun h => Hquiet h l None)).
      match goal with
      | |- context [E_successors E ?h l None] => destruct (Hdead h l) as [h' ->]
      end.
      simpl. eexists _, _, _. reflexivity. }
    destruct Hprep as (bp1 & bp2 & w1 & ->). simpl.
    unfold bind at 1. rewrite add_concretized_constraints_spec.
    apply (windup_resume_dead_end E l bp1 bp2 _ Hquiet Hdead). }
  split; [exact Hwind|].
  intros Htype tr Htrace Hnonempty.
  destruct (py_last_nonempty tr Hnonempty) as [x Hx].
  destruct Hwind as [w' Hrun].
  unfold complete, bind. simpl. rewrite Htype. simpl. rewrite Htrace. simpl.
  rewrite Hx. rewrite Hrun. eexists. reflexivity.
Qed.

Lemma windup_dead_end_witness :
  (exists w', _crash_windup Toy.dead_end_engine Toy.w_segfault = (Raise IndexError, w'))
  /\ (exists w', complete Toy.dead_end_engine Toy.w_segfault = (Raise IndexError, w')).
Proof.
  destruct (windup_dead_end Toy.dead_end_engine Toy.w_segfault 3%nat)
    as [Hwind Hcomplete].
  - reflexivity.
  - intros h st n. reflexivity.
  - intros h st. exists h. reflexivity.
  - split; [exact Hwind|].
    apply (Hcomplete eq_refl [4096; 4100; 4104]%Z eq_refl). discriminate.
Defined.

(** ** The stashes [complete()] hands back *)

(** X17. A returning [complete()] changes the manager in one place only:
    the [crashed] stash. With no classification the manager is untouched;
    with one, every other stash is the one the manager had when
    [complete()] was called, and [crashed] is replaced by the one-element
    list, not extended (the stash builder being taken to keep its keyword
    arguments). *)
Theorem complete_keeps_other_stashes (E : Engine) (w w' : World) (b : bool) :
  (forall d k, E_make_stashes_dict E d !! k = d !! k) ->
  complete E w = (Ok b, w') ->
  (forall k, k <> "crashed" -> stashes (simgr w') !! k = stashes (simgr w) !! k)
  /\ (b = false -> w' = w)
  /\ (b = true -> stashes (simgr w') !! "crashed" = Some [_crash_state (self w')]).
Proof.
  intros Hmk. unfold complete, bind. simpl.
  destruct (_crash_type (self w)) as [[|]|]; simpl.
  - intros H. injection H as <- <-. simpl. repeat split.
    + intros k Hk. rewrite Hmk. apply lookup_insert_ne. congruence.
    + discriminate.
    + intros _. rewrite Hmk. apply lookup_insert_eq.
  - destruct (_trace (self w)) as [tr|]; simpl; [|discriminate].
    destruct (py_last tr); simpl; [|discriminate].
    destruct (_crash_windup E w) as [[s|e] ww]; simpl; [|discriminate].
    intros H. injection H as <- <-. simpl. repeat split.
    + intros k Hk. rewrite Hmk. apply lookup_insert_ne. congruence.
    + discriminate.
    + intros _. rewrite Hmk. apply lookup_insert_eq.
  - intros H. injection H as <- <-. repeat split; try discriminate.
Qed.

Lemma complete_keeps_other_stashes_witness :
  let w' := snd (complete Toy.E0 Toy.w_exec_stack) in
  stashes (simgr w') !! "active" = stashes (simgr Toy.w_exec_stack) !! "active"
  /\ stashes (simgr w') !! "crashed" = Some [_crash_state (self w')].
Proof.
  intros w'.
  assert (Hrun : complete Toy.E0 Toy.w_exec_stack = (Ok true, w')).
  { vm_compute. reflexivity. }
  destruct (complete_keeps_other_stashes Toy.E0 Toy.w_exec_stack w' true
              (fun d k => eq_refl) Hrun) as (Hother & _ & Hcrashed).
  split; [apply Hother; discriminate | apply Hcrashed; reflexivity].
Defined.
